(** * The order dashboard of [src/App.jsx]: quantity parsing, grouping,
      duplicate annotation, filtering and sorting.

    The component keeps a list of products loaded from a CSV file and
    derives the displayed list, [filteredProducts], from it.  This file
    embeds the functions that carry the logic ([parseQuantity], [getUnit],
    the row normaliser of [loadCSV] and the body of [filteredProducts]) and
    proves what the specification says about them.

    Conventions of the embedding.
    - A JavaScript string is the list of its UTF-16 code units.
    - The numbers of the program are non-negative: integers held in IEEE
      doubles, or [+Infinity].  A finite one is its value in [N] and
      [infinity], 2^1024, stands for [+Infinity]; [toDouble] rounds an
      integer to the nearest double, ties to even, as [parseInt] and [+]
      do, and [numberToString] prints what a template literal prints.
    - The two plain objects the code uses as dictionaries are association
      lists in insertion order, together with what a property read finds on
      [Object.prototype] when the object has no such property of its own. *)

From Stdlib Require Import Ascii String.
From Stdlib Require Import List NArith ZArith Lia Bool Permutation Sorted.
Import ListNotations.
Local Open Scope N_scope.

(* ================================================================== *)
(** * JavaScript strings *)
(* ================================================================== *)

Definition jsstring := list N.

(** An ASCII literal as a list of code units. *)
Definition js (s : string) : jsstring :=
  map N_of_ascii (list_ascii_of_string s).
Arguments js s%_string.

Fixpoint eqb_str (a b : jsstring) : bool :=
  match a, b with
  | [], [] => true
  | x :: a', y :: b' => (x =? y) && eqb_str a' b'
  | _, _ => false
  end.

(** Truthiness of a string: the empty string is the only falsy one. *)
Definition truthy (s : jsstring) : bool :=
  match s with [] => false | _ :: _ => true end.

(** [a || b] on values that are strings or [undefined]. *)
Definition orElse (a : option jsstring) (b : option jsstring) : option jsstring :=
  match a with
  | Some s => if truthy s then a else b
  | None => b
  end.

(** [String.prototype.includes]: [sub] occurs in [s] as a contiguous block. *)
Fixpoint startsWith (sub s : jsstring) : bool :=
  match sub, s with
  | [], _ => true
  | p :: sub', c :: s' => (p =? c) && startsWith sub' s'
  | _ :: _, [] => false
  end.

Fixpoint includes (s sub : jsstring) : bool :=
  startsWith sub s ||
  match s with
  | [] => false
  | _ :: r => includes r sub
  end.

(** WhiteSpace and LineTerminator code units, the ones [trim] removes. *)
Definition whiteSpace : list N :=
  [9; 10; 11; 12; 13; 32; 160; 5760; 8192; 8193; 8194; 8195; 8196; 8197;
   8198; 8199; 8200; 8201; 8202; 8232; 8233; 8239; 8287; 12288; 65279].

Definition isWhiteSpace (c : N) : bool := existsb (N.eqb c) whiteSpace.

Fixpoint trimStart (s : jsstring) : jsstring :=
  match s with
  | c :: r => if isWhiteSpace c then trimStart r else s
  | [] => []
  end.

Definition trim (s : jsstring) : jsstring :=
  rev (trimStart (rev (trimStart s))).

(* ================================================================== *)
(** * Numbers and their decimal text *)
(* ================================================================== *)

Definition isDigit (c : N) : bool := (48 <=? c) && (c <=? 57).

Definition digitValue (c : N) : N := c - 48.

(** 2^53: below it every integer is a double. *)
Definition safeLimit : N := 9007199254740992.

(** The representative of [+Infinity]. *)
Definition infinity : N := N.shiftl 1 1024.

(** The Number value for the integer [n]: [n] itself below 2^53, and
    otherwise [n] rounded to 53 significant bits, to the nearest and to the
    even one of two nearest; what reaches 2^1024 is [+Infinity]. *)
Definition toDouble (n : N) : N :=
  if n <? safeLimit then n
  else
    let e := N.log2 n - 52 in
    let q := n / 2 ^ e in
    let r := n mod 2 ^ e in
    let half := 2 ^ (e - 1) in
    let q' := if r <? half then q
              else if half <? r then q + 1
              else if N.even q then q else q + 1 in
    if infinity <=? q' * 2 ^ e then infinity else q' * 2 ^ e.

(** [a + b] on two numbers: the exact sum, rounded. *)
Definition addNumbers (a b : N) : N := toDouble (a + b).

(** [parseInt(num, 10)] on a string of decimal digits: the Number value
    for the integer the digits write.  (Past twenty significant digits the
    language lets an implementation round the digits first; the engines in
    use round the exact integer.) *)
Definition parseInt10 (num : jsstring) : N :=
  toDouble (fold_left (fun acc c => 10 * acc + digitValue c) num 0).

(** The decimal digits of [n], most significant first, in front of [acc]. *)
Fixpoint digitsLoop (fuel : nat) (n : N) (acc : jsstring) : jsstring :=
  match fuel with
  | O => acc
  | S fuel' =>
      let acc' := (48 + n mod 10) :: acc in
      if n / 10 =? 0 then acc' else digitsLoop fuel' (n / 10) acc'
  end.

Definition decimalDigits (n : N) : jsstring :=
  digitsLoop (S (N.to_nat (N.log2 n))) n [].

Definition digitCount (n : N) : N := N.of_nat (List.length (decimalDigits n)).

(** [Number::toString] on a double [x] from 2^53 on.  It looks for the
    fewest digits [k] such that some [s] of [k] digits and some exponent
    [p] give a decimal [s * 10^p] that rounds to [x]; of several such [s]
    it takes the one nearest to [x], and the even one of two nearest.
    [candidates x k] lists the pairs [(s, p)] for [k] digits. *)
Definition candidates (x k : N) : list (N * N) :=
  let d := digitCount x in
  flat_map (fun p =>
    flat_map (fun s =>
      if (10 ^ (k - 1) <=? s) && (s <? 10 ^ k) && (toDouble (s * 10 ^ p) =? x)
      then [(s, p)] else [])
      [x / 10 ^ p; x / 10 ^ p + 1])
    [d - k; d - k + 1].

Definition distance (x : N) (c : N * N) : N :=
  let v := fst c * 10 ^ snd c in if v <? x then x - v else v - x.

Definition closer (x : N) (a b : N * N) : N * N :=
  if distance x b <? distance x a then b
  else if distance x a <? distance x b then a
  else if N.even (fst a) then a else b.

Fixpoint shortest (fuel : nat) (x k : N) : option (N * N) :=
  match fuel with
  | O => None
  | S fuel' =>
      match candidates x k with
      | [] => shortest fuel' x (k + 1)
      | c :: cs => Some (fold_left (closer x) cs c)
      end
  end.

(** The digits of [s] followed by [p] zeros while that takes at most 21
    digits, and the exponent notation from there on.  Seventeen digits
    always identify a double. *)
Definition largeNumberText (x : N) : jsstring :=
  match shortest 17 x 1 with
  | None => decimalDigits x
  | Some (s, p) =>
      let n := digitCount s + p in
      if n <=? 21 then decimalDigits s ++ repeat 48 (N.to_nat p)
      else
        match decimalDigits s with
        | [] => []
        | d :: [] => d :: js "e+" ++ decimalDigits (n - 1)
        | d :: ds => d :: js "." ++ ds ++ js "e+" ++ decimalDigits (n - 1)
        end
  end.

(** [`${n}`] for a number [n]: plain decimal digits below 2^53. *)
Definition numberToString (n : N) : jsstring :=
  if n <? safeLimit then decimalDigits n
  else if infinity <=? n then js "Infinity"
  else largeNumberText n.

(* ================================================================== *)
(** * [parseQuantity] (App.jsx, lines 80-84) *)
(* ================================================================== *)

(** What [\d+] consumes at the current index: the longest run of digits. *)
Fixpoint digitPrefix (s : jsstring) : jsstring :=
  match s with
  | c :: r => if isDigit c then c :: digitPrefix r else []
  | [] => []
  end.

(** [str.match(/\d+/g)]: all matches from left to right.  After a match the
    scan resumes at its end, after a failure one code unit further. *)
Fixpoint matchDigitsLoop (fuel : nat) (s : jsstring) : list jsstring :=
  match fuel with
  | O => []
  | S fuel' =>
      match s with
      | [] => []
      | _ :: r =>
          match digitPrefix s with
          | [] => matchDigitsLoop fuel' r
          | m => m :: matchDigitsLoop fuel' (skipn (List.length m) s)
          end
      end
  end.

Definition matchDigits (s : jsstring) : list jsstring :=
  matchDigitsLoop (List.length s) s.

(** [match] returns [null] when nothing matches; the empty list stands for
    it. *)
Definition parseQuantity (quantityStr : jsstring) : N :=
  match matchDigits quantityStr with
  | [] => 0
  | numbers => fold_left (fun sum num => addNumbers sum (parseInt10 num)) numbers 0
  end.

(* ================================================================== *)
(** * [getUnit] (App.jsx, lines 86-89) *)
(* ================================================================== *)

Definition c_cedilla : N := 231.      (* U+00E7 *)
Definition g_breve : N := 287.        (* U+011F *)
Definition dotless_i : N := 305.      (* U+0131 *)

(** The alternatives of the regular expression, in its order. *)
Definition units : list jsstring :=
  [ js "kg"; js "kasa"; js "adet"; js "paket"; js "demet";
    js "ba" ++ [g_breve];
    c_cedilla :: js "ubuk";
    js "tane";
    c_cedilla :: js "uval";
    js "salk" ++ [dotless_i] ++ js "m" ].

(** Canonicalize of the [i] flag without the [u] flag: a code unit is
    compared through its upper-case form when that form is one code unit
    and does not fall from outside ASCII into ASCII.  The table covers the
    letters of [units]: a-z, c-cedilla and g-breve have an upper-case
    partner; dotless i upper-cases to ASCII I and therefore stays itself;
    no other code unit is sent onto the image of a letter of [units], so
    leaving the others fixed does not change which texts match. *)
Definition canonicalize (c : N) : N :=
  if (97 <=? c) && (c <=? 122) then c - 32
  else if c =? c_cedilla then 199
  else if c =? g_breve then 286
  else c.

(** One alternative matched at the start of [s]: the matched text. *)
Fixpoint matchToken (tok s : jsstring) : option jsstring :=
  match tok, s with
  | [], _ => Some []
  | p :: tok', c :: s' =>
      if canonicalize p =? canonicalize c
      then option_map (cons c) (matchToken tok' s')
      else None
  | _ :: _, [] => None
  end.

(** The alternation at the start of [s]: the first alternative that matches. *)
Fixpoint matchAlternatives (toks : list jsstring) (s : jsstring) : option jsstring :=
  match toks with
  | [] => None
  | tok :: toks' =>
      match matchToken tok s with
      | Some m => Some m
      | None => matchAlternatives toks' s
      end
  end.

(** The first element of [str.match(/(?:kg|...)/gi)]: the match at the
    leftmost index where one exists. *)
Fixpoint firstUnit (s : jsstring) : option jsstring :=
  match matchAlternatives units s with
  | Some m => Some m
  | None =>
      match s with
      | [] => None
      | _ :: r => firstUnit r
      end
  end.

Definition getUnit (quantityStr : jsstring) : jsstring :=
  match firstUnit quantityStr with
  | Some u => u
  | None => js "adet"
  end.

(* ================================================================== *)
(** * Values read from a plain object used as a dictionary *)
(* ================================================================== *)

(** The object literal [{}] inherits from [Object.prototype].  A read
    [o[k]] finds the object's own property when there is one and otherwise
    what [Object.prototype] holds under [k]: a built-in function for the
    names below, the prototype object itself for [__proto__], and
    [undefined] for every other name. *)
Definition prototypeFunctions : list jsstring :=
  [ js "constructor"; js "hasOwnProperty"; js "isPrototypeOf";
    js "propertyIsEnumerable"; js "toLocaleString"; js "toString";
    js "valueOf"; js "__defineGetter__"; js "__defineSetter__";
    js "__lookupGetter__"; js "__lookupSetter__" ].

Definition protoName : jsstring := js "__proto__".

Inductive jsvalue : Type :=
| Undefined
| Num (n : N)
| NativeFunction (k : jsstring)
    (* the function [Object.prototype[k]] *)
| NativeText (k : jsstring) (ones : nat)
    (* the text of [Object.prototype[k]] followed by [ones] characters "1" *)
| ObjectPrototype.
    (* [Object.prototype], as read through [__proto__] *)

Definition dict := list (jsstring * jsvalue).

Fixpoint getOwn (o : dict) (k : jsstring) : option jsvalue :=
  match o with
  | [] => None
  | (k', v) :: rest => if eqb_str k' k then Some v else getOwn rest k
  end.

Definition inherited (k : jsstring) : jsvalue :=
  if eqb_str k protoName then ObjectPrototype
  else if existsb (eqb_str k) prototypeFunctions then NativeFunction k
  else Undefined.

Definition getProp (o : dict) (k : jsstring) : jsvalue :=
  match getOwn o k with
  | Some v => v
  | None => inherited k
  end.

Fixpoint setOwn (o : dict) (k : jsstring) (v : jsvalue) : dict :=
  match o with
  | [] => [(k, v)]
  | (k', v') :: rest =>
      if eqb_str k' k then (k', v) :: rest else (k', v') :: setOwn rest k v
  end.

(** [o[k] = v] for a value [v] that is not an object: the assignment to
    [__proto__] reaches the inherited setter, which ignores such a value;
    every other name becomes, or updates, an own property. *)
Definition setProp (o : dict) (k : jsstring) (v : jsvalue) : dict :=
  if eqb_str k protoName then o else setOwn o k v.

(** [(v || 0) + 1].  A number is incremented ([0] and [undefined] both
    give [1]); a function, an object or a non-empty string is truthy and
    [+] concatenates its text with "1". *)
Definition plusOne (v : jsvalue) : jsvalue :=
  match v with
  | Undefined => Num 1
  | Num n => Num (n + 1)
  | NativeFunction k => NativeText k 1
  | NativeText k ones => NativeText k (S ones)
  | ObjectPrototype => NativeText protoName 1
  end.

(** [v > 1]: a text that is not a numeral, a function and an object
    convert to NaN, and every comparison with NaN is false. *)
Definition greaterThanOne (v : jsvalue) : bool :=
  match v with
  | Num n => 1 <? n
  | _ => false
  end.

(* ================================================================== *)
(** * Records *)
(* ================================================================== *)

Record product : Type := mkProduct {
  id : N;
  name : jsstring;
  quantity : jsstring;
  originalQuantity : jsstring;
  date : jsstring;
  uniqueKey : jsstring
}.

(** A product of the displayed list: [{...product, duplicateCount,
    isDuplicate}]. *)
Record shownProduct : Type := mkShown {
  item : product;
  duplicateCount : jsvalue;
  isDuplicate : bool
}.

(* ================================================================== *)
(** * The row normaliser ([processedProducts], App.jsx, lines 28-43) *)
(* ================================================================== *)

(** A parsed CSV row: column name and cell text, in header order. *)
Definition RawRow := list (jsstring * jsstring).

Fixpoint field (row : RawRow) (k : jsstring) : option jsstring :=
  match row with
  | [] => None
  | (k', v) :: rest => if eqb_str k' k then Some v else field rest k
  end.

Definition col_urun : jsstring := [252; 114; 252; 110].       (* "ürün" *)
Definition col_Urun : jsstring := [220; 114; 252; 110].       (* "Ürün" *)
Definition col_miktar : jsstring := js "miktar".
Definition col_Miktar : jsstring := js "Miktar".

Definition defaultDate : jsstring := js "2025-08-26".

Definition text (v : option jsstring) : jsstring :=
  match v with Some s => s | None => [] end.

(** [row[a] || row[b] || ''] *)
Definition resolve (row : RawRow) (a b : jsstring) : jsstring :=
  text (orElse (orElse (field row a) (field row b)) (Some [])).

Definition toProduct (index : N) (row : RawRow) : product :=
  let productName := resolve row col_urun col_Urun in
  let quantity := resolve row col_miktar col_Miktar in
  {| id := index + 1;
     name := trim productName;
     quantity := trim quantity;
     originalQuantity := trim quantity;
     date := defaultDate;
     uniqueKey := trim productName ++ js "-" ++ trim quantity |}.

(** [Array.prototype.map] with the element's index. *)
Fixpoint mapFrom {A B : Type} (f : N -> A -> B) (index : N) (l : list A) : list B :=
  match l with
  | [] => []
  | x :: rest => f index x :: mapFrom f (index + 1) rest
  end.

Definition keepProduct (p : product) : bool :=
  truthy (name p) && truthy (quantity p).

Definition processedProducts (data : list RawRow) : list product :=
  filter keepProduct (mapFrom toProduct 0 data).

(* ================================================================== *)
(** * Grouping (App.jsx, lines 132-150) *)
(* ================================================================== *)

Definition groupKey (p : product) : jsstring :=
  name p ++ js "-" ++ quantity p.

(** The branch taken when the key is already present.  The stored record
    is a copy ([{...product}]) of the first product seen under the key, so
    the update touches neither [products] nor any other group. *)
Definition combine (existing p : product) : product :=
  let existingQuantity := parseQuantity (quantity existing) in
  let newQuantity := parseQuantity (quantity p) in
  let combinedQuantity := addNumbers existingQuantity newQuantity in
  let unit := getUnit (quantity p) in
  let merged := numberToString combinedQuantity ++ js " " ++ unit in
  {| id := id existing;
     name := name existing;
     quantity := merged;
     originalQuantity := merged;
     date := date existing;
     uniqueKey := uniqueKey existing |}.

(** One iteration of the [forEach] on [groupedProducts], an object whose
    properties are kept in insertion order.  Every key contains the
    character "-", so it is neither an array index, which [Object.values]
    would list first, nor a name found on [Object.prototype]. *)
Fixpoint groupInsert (groupedProducts : list (jsstring * product))
    (key : jsstring) (p : product) : list (jsstring * product) :=
  match groupedProducts with
  | [] => [(key, p)]
  | (k, existing) :: rest =>
      if eqb_str k key then (k, combine existing p) :: rest
      else (k, existing) :: groupInsert rest key p
  end.

Definition groupStep (groupedProducts : list (jsstring * product)) (p : product) :=
  groupInsert groupedProducts (groupKey p) p.

Definition groupProducts (filtered : list product) : list (jsstring * product) :=
  fold_left groupStep filtered [].

(** [Object.values(groupedProducts)] *)
Definition aggregate (filtered : list product) : list product :=
  map snd (groupProducts filtered).

(* ================================================================== *)
(** * Duplicate annotation (App.jsx, lines 152-162) *)
(* ================================================================== *)

Definition countStep (nameCounts : dict) (p : product) : dict :=
  setProp nameCounts (name p) (plusOne (getProp nameCounts (name p))).

Definition countNames (filtered : list product) : dict :=
  fold_left countStep filtered [].

Definition annotateWith (nameCounts : dict) (p : product) : shownProduct :=
  {| item := p;
     duplicateCount := getProp nameCounts (name p);
     isDuplicate := greaterThanOne (getProp nameCounts (name p)) |}.

Definition annotate (filtered : list product) : list shownProduct :=
  map (annotateWith (countNames filtered)) filtered.

(* ================================================================== *)
(** * Sorting (App.jsx, lines 164-176) *)
(* ================================================================== *)

Inductive SortBy : Type := asc | desc | none.
Inductive SortColumn : Type := byName | byQuantity.

(** [Array.prototype.sort] with a comparator: the sort is stable, and for
    a consistent comparator the result is the one insertion sort builds. *)
Fixpoint insertSorted {A : Type} (cmp : A -> A -> Z) (x : A) (l : list A) : list A :=
  match l with
  | [] => [x]
  | y :: rest =>
      if (cmp x y <=? 0)%Z then x :: y :: rest
      else y :: insertSorted cmp x rest
  end.

Fixpoint sortWith {A : Type} (cmp : A -> A -> Z) (l : list A) : list A :=
  match l with
  | [] => []
  | x :: rest => insertSorted cmp x (sortWith cmp rest)
  end.

Section View.

(** The two primitives of the platform the view relies on:
    [String.prototype.toLowerCase] and
    [String.prototype.localeCompare(_, 'tr')]. *)
Variable toLowerCase : jsstring -> jsstring.
Variable localeCompare : jsstring -> jsstring -> Z.

Definition dateFilter (selectedDate : jsstring) (products : list product) :=
  filter (fun p => eqb_str (date p) selectedDate) products.

Definition matchesSearch (searchTerm : jsstring) (p : product) : bool :=
  includes (toLowerCase (name p)) (toLowerCase searchTerm).

(** [if (searchTerm) filtered = filtered.filter(...)] *)
Definition textFilter (searchTerm : jsstring) (filtered : list product) :=
  if truthy searchTerm then filter (matchesSearch searchTerm) filtered
  else filtered.

(** The comparator's result as the sort uses it, by its sign.  The
    difference of two magnitudes has the sign of the exact difference, and
    [Infinity - Infinity], which is NaN, counts as 0 for the sort, as the
    difference of the two representatives does. *)
Definition comparison (sortColumn : SortColumn) (a b : shownProduct) : Z :=
  match sortColumn with
  | byName =>
      localeCompare (toLowerCase (name (item a))) (toLowerCase (name (item b)))
  | byQuantity =>
      (Z.of_N (parseQuantity (quantity (item a)))
       - Z.of_N (parseQuantity (quantity (item b))))%Z
  end.

Definition comparator (sortBy : SortBy) (sortColumn : SortColumn)
    (a b : shownProduct) : Z :=
  match sortBy with
  | desc => (- comparison sortColumn a b)%Z
  | _ => comparison sortColumn a b
  end.

Definition sortView (sortBy : SortBy) (sortColumn : SortColumn)
    (filtered : list shownProduct) : list shownProduct :=
  match sortBy with
  | none => filtered
  | _ => sortWith (comparator sortBy sortColumn) filtered
  end.

(** The body of the [useMemo] callback. *)
Definition filteredProducts (products : list product) (searchTerm : jsstring)
    (sortBy : SortBy) (sortColumn : SortColumn) (selectedDate : jsstring)
    : list shownProduct :=
  let filtered := dateFilter selectedDate products in
  let filtered := textFilter searchTerm filtered in
  let filtered := aggregate filtered in
  let filtered := annotate filtered in
  sortView sortBy sortColumn filtered.

End View.

(** The two counts the page displays: [products.length] and
    [filteredProducts.length]. *)
Definition totalCount (products : list product) : nat := List.length products.

Definition shownCount (shown : list shownProduct) : nat := List.length shown.

(** ASCII lower-casing: what [toLowerCase] does to a string whose code
    units are all below 128. *)
Definition asciiLower (s : jsstring) : jsstring :=
  map (fun c => if (65 <=? c) && (c <=? 90) then c + 32 else c) s.

(** Comparison by code units: negative, zero or positive. *)
Fixpoint codeUnitCompare (a b : jsstring) : Z :=
  match a, b with
  | [], [] => 0%Z
  | [], _ :: _ => (-1)%Z
  | _ :: _, [] => 1%Z
  | x :: a', y :: b' =>
      if x =? y then codeUnitCompare a' b'
      else if x <? y then (-1)%Z else 1%Z
  end.

(* ================================================================== *)
(** * Notions used in the statements *)
(* ================================================================== *)

Definition noDigit (s : jsstring) : Prop := Forall (fun c => isDigit c = false) s.

Definition allDigits (s : jsstring) : Prop := Forall (fun c => isDigit c = true) s.

Definition digitFree (s : jsstring) : Prop :=
  match s with
  | [] => True
  | c :: _ => isDigit c = false
  end.

(** [DigitRuns s runs]: [runs] lists, from left to right, the maximal runs
    of decimal digits of [s].  A run is a non-empty block of digits that
    is preceded by the start of the text or a non-digit and followed by
    the end of the text or a non-digit. *)
Inductive DigitRuns : jsstring -> list jsstring -> Prop :=
| runs_none : forall s, noDigit s -> DigitRuns s []
| runs_next : forall pre run rest runs,
    noDigit pre ->
    run <> [] ->
    allDigits run ->
    digitFree rest ->
    DigitRuns rest runs ->
    DigitRuns (pre ++ run ++ rest) (run :: runs).

(** The value of a numeral in base ten: the digit at distance [k] from the
    right end counts [10^k] times. *)
Fixpoint decimalValue (run : jsstring) : N :=
  match run with
  | [] => 0
  | c :: r => digitValue c * 10 ^ N.of_nat (List.length r) + decimalValue r
  end.

Definition sumList (l : list N) : N := fold_right N.add 0 l.

(** The distance of two integers. *)
Definition gap (a b : N) : N := if a <? b then b - a else a - b.

(** The finite doubles that are non-negative integers: every integer below
    2^53, and from there on the products of a mantissa of 53 bits and a
    power of two. *)
Definition isDouble (d : N) : Prop :=
  d < safeLimit \/ exists m e, 2 ^ 52 <= m < 2 ^ 53 /\ e <= 971 /\ d = m * 2 ^ e.

(** The sum of [values] as the program computes it: from left to right in
    double arithmetic, every value and every partial sum rounded. *)
Definition roundedSum (values : list N) : N :=
  fold_left (fun sum v => toDouble (sum + toDouble v)) values 0.

(** The capital of a letter of the vocabulary, as [toUpperCase] gives it:
    A-Z for a-z, C-cedilla and G-breve for their small letters, and the
    plain I for the dotless i. *)
Definition upperLetter (c : N) : N :=
  if (97 <=? c) && (c <=? 122) then c - 32
  else if c =? 231 then 199
  else if c =? 287 then 286
  else if c =? 305 then 73
  else c.

Definition salkim : jsstring := js "salk" ++ [305] ++ js "m".

(** Equality of two texts when case is ignored the way the [i] flag does. *)
Definition sameLetters (a b : jsstring) : Prop :=
  map canonicalize a = map canonicalize b.

(** [s.slice(i, i + len)] *)
Definition slice (s : jsstring) (i len : nat) : jsstring :=
  firstn len (skipn i s).

(** [tok] occurs in [s] at index [i], case being ignored. *)
Definition occursAt (tok s : jsstring) (i : nat) : Prop :=
  (i + List.length tok <= List.length s)%nat
  /\ sameLetters (slice s i (List.length tok)) tok.

(** No unit, case ignored, is the beginning of another one: at a given
    index at most one unit occurs. *)
Fixpoint isPrefixOf (a b : jsstring) : bool :=
  match a, b with
  | [], _ => true
  | x :: a', y :: b' => (x =? y) && isPrefixOf a' b'
  | _ :: _, [] => false
  end.

(** The keys of a list in the order of their first occurrence. *)
Fixpoint firstSeen (keys : list jsstring) : list jsstring :=
  match keys with
  | [] => []
  | k :: rest => k :: filter (fun k' => negb (eqb_str k' k)) (firstSeen rest)
  end.

(** The products of [l] filed under key [k], in the order of [l]. *)
Definition members (k : jsstring) (l : list product) : list product :=
  filter (fun p => eqb_str (groupKey p) k) l.

(** The products of [l] filed under another key than [k]. *)
Definition others (k : jsstring) (l : list product) : list product :=
  filter (fun p => negb (eqb_str (groupKey p) k)) l.

Definition hyphen : N := 45.

Definition totalMagnitude (l : list product) : N :=
  sumList (map (fun p => parseQuantity (quantity p)) l).

Definition nameAndQuantity (p : product) : jsstring * jsstring :=
  (name p, quantity p).

Definition magnitudes (l : list product) : list N :=
  map (fun p => parseQuantity (quantity p)) l.

(** The ids 1, 2, ..., [k]. *)
Definition firstIds (k : nat) : list N :=
  map (fun i => N.of_nat i + 1) (seq 0 k).

(** How many products of [l] carry the name [n]. *)
Definition occurrences (n : jsstring) (l : list product) : nat :=
  List.length (filter (fun p => eqb_str (name p) n) l).

(** What [nameCounts[n]] holds after [c] products of name [n] were
    counted. *)
Definition countedValue (n : jsstring) (c : nat) : jsvalue :=
  if eqb_str n protoName then ObjectPrototype
  else Nat.iter c plusOne (inherited n).

(** The text filter applied to the displayed records. *)
Definition shownFilter (toLowerCase : jsstring -> jsstring)
    (searchTerm : jsstring) (shown : list shownProduct) : list shownProduct :=
  if truthy searchTerm
  then filter (fun s => matchesSearch toLowerCase searchTerm (item s)) shown
  else shown.

(** A test on products that looks at the name only. *)
Definition byNameOnly (F : product -> bool) : Prop :=
  forall p q, name p = name q -> F p = F q.

(** Products of [l] with the same group key have the same name. *)
Definition keysDetermineNames (l : list product) : Prop :=
  forall p q, In p l -> In q l -> groupKey p = groupKey q -> name p = name q.

(** A consistent comparator: swapping the arguments swaps the sign, and
    "not after" is transitive. *)
Definition consistentComparator {A : Type} (cmp : A -> A -> Z) : Prop :=
  (forall x y, Z.sgn (cmp y x) = (- Z.sgn (cmp x y))%Z)
  /\ (forall x y z, (cmp x y <= 0)%Z -> (cmp y z <= 0)%Z -> (cmp x z <= 0)%Z).

Definition notAfter {A : Type} (cmp : A -> A -> Z) (a b : A) : Prop :=
  (cmp a b <= 0)%Z.

(* ================================================================== *)
(** * The header, the export and the footer
      (App.jsx, lines 62-78, 100-106 and 348-358) *)
(* ================================================================== *)

(** The two pieces of state the header buttons change. *)
Record SortState : Type := mkSortState {
  sortBy : SortBy;
  sortColumn : SortColumn
}.

(** [useState('desc')] and [useState('quantity')] *)
Definition initialSort : SortState := mkSortState desc byQuantity.

Definition sameColumn (a b : SortColumn) : bool :=
  match a, b with
  | byName, byName => true
  | byQuantity, byQuantity => true
  | _, _ => false
  end.

(** The state after [handleSort(column)]: on the sorted column only
    [setSortBy] is called, on another column both setters are. *)
Definition handleSort (st : SortState) (column : SortColumn) : SortState :=
  if sameColumn (sortColumn st) column then
    match sortBy st with
    | asc => mkSortState desc (sortColumn st)
    | desc => mkSortState none (sortColumn st)
    | none => mkSortState asc (sortColumn st)
    end
  else mkSortState asc column.

(** The three icons of a header button. *)
Inductive Icon : Type := SortAscIcon | ArrowUpIcon | ArrowDownIcon.

Definition getSortIcon (st : SortState) (column : SortColumn) : Icon :=
  if negb (sameColumn (sortColumn st) column) then SortAscIcon
  else match sortBy st with
       | asc => ArrowUpIcon
       | desc => ArrowDownIcon
       | none => SortAscIcon
       end.

(** A row of the exported table: the columns tarih, ürün, birim, miktar. *)
Record exportRow : Type := mkExportRow {
  tarih : jsstring;
  urun : jsstring;
  birim : jsstring;
  miktar : N
}.

(** [csvContent] of [downloadExcel].  [formatDate] goes through [Date]
    and [toLocaleDateString] and is a parameter here. *)
Definition csvContent (formatDate : jsstring -> jsstring)
    (filteredProducts : list shownProduct) : list exportRow :=
  map (fun product =>
         {| tarih := formatDate (date (item product));
            urun := name (item product);
            birim := getUnit (quantity (item product));
            miktar := parseQuantity (quantity (item product)) |})
      filteredProducts.

(** [new Set(filteredProducts.map(p => p.name)).size]: a set keeps one
    copy of every name. *)
Definition uniqueProducts (filteredProducts : list shownProduct) : nat :=
  List.length (firstSeen (map (fun p => name (item p)) filteredProducts)).

(** The footer shows the number of different products only when it is
    not the number of rows. *)
Definition footerNote (filteredProducts : list shownProduct) : option nat :=
  if Nat.eqb (uniqueProducts filteredProducts) (List.length filteredProducts)
  then None
  else Some (uniqueProducts filteredProducts).

(** A character that cannot start a unit: a digit or a space. *)
Definition digitOrSpace (c : N) : Prop := isDigit c = true \/ c = 32.

Definition totalExported (rows : list exportRow) : N :=
  sumList (map miktar rows).

Definition shownMagnitude (s : shownProduct) : N :=
  parseQuantity (quantity (item s)).

(** A text that does not begin with white space. *)
Definition startsClean (s : jsstring) : Prop :=
  match s with
  | [] => True
  | c :: _ => isWhiteSpace c = false
  end.

(** A text with no white space at either end. *)
Definition trimmed (s : jsstring) : Prop :=
  startsClean s /\ startsClean (rev s).

(* ================================================================== *)
(** * The older component (the second source file): five sort modes, no
      grouping *)
(* ================================================================== *)

Module Legacy.

(** The values of [sortBy]: 'name-asc', 'name-desc', 'amount-asc',
    'amount-desc' and 'none'. *)
Inductive SortMode : Type := nameAsc | nameDesc | amountAsc | amountDesc | noSort.

(** [useState('amount-desc')] *)
Definition initialMode : SortMode := amountDesc.

Definition handleNameSort (sortBy : SortMode) : SortMode :=
  match sortBy with
  | nameAsc => nameDesc
  | nameDesc => noSort
  | _ => nameAsc
  end.

Definition handleAmountSort (sortBy : SortMode) : SortMode :=
  match sortBy with
  | amountDesc => amountAsc
  | amountAsc => noSort
  | _ => amountDesc
  end.

Definition getNameSortIcon (sortBy : SortMode) : Icon :=
  match sortBy with
  | nameAsc => ArrowUpIcon
  | nameDesc => ArrowDownIcon
  | _ => SortAscIcon
  end.

(** The records of the older component have no date and no unique key. *)
Record product : Type := mkProduct {
  id : N;
  name : jsstring;
  quantity : jsstring;
  originalQuantity : jsstring
}.

Definition filteredProducts (toLowerCase : jsstring -> jsstring)
    (localeCompare : jsstring -> jsstring -> Z)
    (products : list product) (searchTerm : jsstring) (sortBy : SortMode)
    : list product :=
  let filtered :=
    if truthy searchTerm
    then filter (fun product =>
                   includes (toLowerCase (name product)) (toLowerCase searchTerm))
                products
    else products in
  match sortBy with
  | nameAsc =>
      sortWith (fun a b =>
                  localeCompare (toLowerCase (name a)) (toLowerCase (name b)))
               filtered
  | nameDesc =>
      sortWith (fun a b =>
                  localeCompare (toLowerCase (name b)) (toLowerCase (name a)))
               filtered
  | amountAsc =>
      sortWith (fun a b => (Z.of_N (parseQuantity (quantity a))
                            - Z.of_N (parseQuantity (quantity b)))%Z)
               filtered
  | amountDesc =>
      sortWith (fun a b => (Z.of_N (parseQuantity (quantity b))
                            - Z.of_N (parseQuantity (quantity a)))%Z)
               filtered
  | noSort => filtered
  end.

End Legacy.

(** A displayed record of the current component as the older one holds
    it. *)
Definition toLegacy (s : shownProduct) : Legacy.product :=
  Legacy.mkProduct (id (item s)) (name (item s)) (quantity (item s))
    (originalQuantity (item s)).

(* ================================================================== *)
(** * The same code on untyped values: where it can throw

    The definitions above take the fields of a row and of a product as
    the strings they are once the file is loaded.  The code itself does
    not know them to be strings: it calls [trim] and [toLowerCase] on
    whatever a field holds, and such a call throws a [TypeError] on a
    value that has no such method.  This module repeats the normaliser
    and the body of [filteredProducts] on values of any kind, with the
    result of a computation being either a value or a thrown error. *)
(* ================================================================== *)

Module Untyped.

Inductive value : Type :=
| VUndefined
| VNull
| VNumber (n : N)
| VString (s : jsstring).

Inductive error : Type := TypeError.

Inductive completion (A : Type) : Type :=
| Returns (a : A)
| Throws (e : error).
Arguments Returns {A} a.
Arguments Throws {A} e.

Definition bind {A B : Type} (c : completion A) (f : A -> completion B)
    : completion B :=
  match c with
  | Returns a => f a
  | Throws e => Throws e
  end.

Notation "x <- c ;; k" := (bind c (fun x => k))
  (at level 61, c at next level, right associativity).

(** ToBoolean *)
Definition toBoolean (v : value) : bool :=
  match v with
  | VUndefined | VNull => false
  | VNumber n => negb (n =? 0)
  | VString s => truthy s
  end.

(** [a || b] *)
Definition orValue (a b : value) : value := if toBoolean a then a else b.

(** ToString, as a template literal, [String(_)] and a property key
    apply it. *)
Definition toStringOf (v : value) : jsstring :=
  match v with
  | VUndefined => js "undefined"
  | VNull => js "null"
  | VNumber n => numberToString n
  | VString s => s
  end.

(** [v.trim()] and [v.toLowerCase()]: the method exists on a string only;
    on [undefined] and [null] the property read throws, on a number the
    call does. *)
Definition callTrim (v : value) : completion jsstring :=
  match v with
  | VString s => Returns (trim s)
  | _ => Throws TypeError
  end.

Definition callToLowerCase (toLowerCase : jsstring -> jsstring) (v : value)
    : completion jsstring :=
  match v with
  | VString s => Returns (toLowerCase s)
  | _ => Throws TypeError
  end.

(** [a === b] *)
Definition strictEquals (a b : value) : bool :=
  match a, b with
  | VUndefined, VUndefined => true
  | VNull, VNull => true
  | VNumber x, VNumber y => x =? y
  | VString x, VString y => eqb_str x y
  | _, _ => false
  end.

(** [String(quantityStr || '')] *)
Definition quantityText (quantityStr : value) : jsstring :=
  toStringOf (orValue quantityStr (VString [])).

Definition parseQuantity (quantityStr : value) : N :=
  parseQuantity (quantityText quantityStr).

Definition getUnit (quantityStr : value) : jsstring :=
  getUnit (quantityText quantityStr).

Record product : Type := mkProduct {
  id : value;
  name : value;
  quantity : value;
  originalQuantity : value;
  date : value;
  uniqueKey : value
}.

Record shownProduct : Type := mkShown {
  item : product;
  duplicateCount : jsvalue;
  isDuplicate : bool
}.

(** A parsed CSV row whose cells may hold any value; a column the row
    does not have reads as [undefined]. *)
Definition RawRow := list (jsstring * value).

Fixpoint field (row : RawRow) (k : jsstring) : value :=
  match row with
  | [] => VUndefined
  | (k', v) :: rest => if eqb_str k' k then v else field rest k
  end.

(** The callback of [results.data.map].  The object literal evaluates its
    properties in the order written, so the first [trim] that throws ends
    the evaluation. *)
Definition toProduct (index : N) (row : RawRow) : completion product :=
  let productName :=
    orValue (orValue (field row col_urun) (field row col_Urun)) (VString []) in
  let quantity :=
    orValue (orValue (field row col_miktar) (field row col_Miktar)) (VString []) in
  name1 <- callTrim (orValue productName (VString [])) ;;
  quantity1 <- callTrim (orValue quantity (VString [])) ;;
  quantity2 <- callTrim (orValue quantity (VString [])) ;;
  name2 <- callTrim (orValue productName (VString [])) ;;
  quantity3 <- callTrim (orValue quantity (VString [])) ;;
  Returns {| id := VNumber (index + 1);
             name := VString name1;
             quantity := VString quantity1;
             originalQuantity := VString quantity2;
             date := VString defaultDate;
             uniqueKey := VString (name2 ++ js "-" ++ quantity3) |}.

(** [Array.prototype.map] and [Array.prototype.filter] with a callback
    that can throw: the elements are visited in order and the first throw
    ends the loop. *)
Fixpoint mapFrom {A B : Type} (f : N -> A -> completion B) (index : N)
    (l : list A) : completion (list B) :=
  match l with
  | [] => Returns []
  | x :: rest =>
      y <- f index x ;;
      ys <- mapFrom f (index + 1) rest ;;
      Returns (y :: ys)
  end.

Fixpoint filterWith {A : Type} (f : A -> completion bool) (l : list A)
    : completion (list A) :=
  match l with
  | [] => Returns []
  | x :: rest =>
      keep <- f x ;;
      kept <- filterWith f rest ;;
      Returns (if keep then x :: kept else kept)
  end.

Definition keepProduct (p : product) : bool :=
  toBoolean (name p) && toBoolean (quantity p).

Definition processedProducts (data : list RawRow) : completion (list product) :=
  products <- mapFrom toProduct 0 data ;;
  Returns (filter keepProduct products).

Definition groupKey (p : product) : jsstring :=
  toStringOf (name p) ++ js "-" ++ toStringOf (quantity p).

Definition combine (existing p : product) : product :=
  let existingQuantity := parseQuantity (quantity existing) in
  let newQuantity := parseQuantity (quantity p) in
  let combinedQuantity := addNumbers existingQuantity newQuantity in
  let unit := getUnit (quantity p) in
  let merged := numberToString combinedQuantity ++ js " " ++ unit in
  {| id := id existing;
     name := name existing;
     quantity := VString merged;
     originalQuantity := VString merged;
     date := date existing;
     uniqueKey := uniqueKey existing |}.

Fixpoint groupInsert (groupedProducts : list (jsstring * product))
    (key : jsstring) (p : product) : list (jsstring * product) :=
  match groupedProducts with
  | [] => [(key, p)]
  | (k, existing) :: rest =>
      if eqb_str k key then (k, combine existing p) :: rest
      else (k, existing) :: groupInsert rest key p
  end.

Definition groupStep (groupedProducts : list (jsstring * product)) (p : product) :=
  groupInsert groupedProducts (groupKey p) p.

Definition groupProducts (filtered : list product) : list (jsstring * product) :=
  fold_left groupStep filtered [].

Definition aggregate (filtered : list product) : list product :=
  map snd (groupProducts filtered).

(** [nameCounts[product.name]]: the property key is the name converted to
    a string. *)
Definition countStep (nameCounts : dict) (p : product) : dict :=
  setProp nameCounts (toStringOf (name p))
    (plusOne (getProp nameCounts (toStringOf (name p)))).

Definition countNames (filtered : list product) : dict :=
  fold_left countStep filtered [].

Definition annotateWith (nameCounts : dict) (p : product) : shownProduct :=
  {| item := p;
     duplicateCount := getProp nameCounts (toStringOf (name p));
     isDuplicate := greaterThanOne (getProp nameCounts (toStringOf (name p))) |}.

Definition annotate (filtered : list product) : list shownProduct :=
  map (annotateWith (countNames filtered)) filtered.

(** [Array.prototype.sort] with a comparator that can throw: a throw of
    the comparator ends the sort.  The comparator is called at all only
    when there are two elements to compare. *)
Fixpoint insertSorted {A : Type} (cmp : A -> A -> completion Z) (x : A)
    (l : list A) : completion (list A) :=
  match l with
  | [] => Returns [x]
  | y :: rest =>
      c <- cmp x y ;;
      if (c <=? 0)%Z then Returns (x :: y :: rest)
      else (rest' <- insertSorted cmp x rest ;; Returns (y :: rest'))
  end.

Fixpoint sortWith {A : Type} (cmp : A -> A -> completion Z) (l : list A)
    : completion (list A) :=
  match l with
  | [] => Returns []
  | x :: rest =>
      sorted <- sortWith cmp rest ;;
      insertSorted cmp x sorted
  end.

Section View.

Variable toLowerCase : jsstring -> jsstring.
Variable localeCompare : jsstring -> jsstring -> Z.

Definition dateFilter (selectedDate : jsstring) (products : list product) :=
  filter (fun p => strictEquals (date p) (VString selectedDate)) products.

Definition matchesSearch (searchTerm : jsstring) (p : product) : completion bool :=
  lowered <- callToLowerCase toLowerCase (name p) ;;
  Returns (includes lowered (toLowerCase searchTerm)).

Definition textFilter (searchTerm : jsstring) (filtered : list product)
    : completion (list product) :=
  if truthy searchTerm then filterWith (matchesSearch searchTerm) filtered
  else Returns filtered.

Definition comparison (sortColumn : SortColumn) (a b : shownProduct)
    : completion Z :=
  match sortColumn with
  | byName =>
      a' <- callToLowerCase toLowerCase (name (item a)) ;;
      b' <- callToLowerCase toLowerCase (name (item b)) ;;
      Returns (localeCompare a' b')
  | byQuantity =>
      Returns (Z.of_N (parseQuantity (quantity (item a)))
               - Z.of_N (parseQuantity (quantity (item b))))%Z
  end.

Definition comparator (sortBy : SortBy) (sortColumn : SortColumn)
    (a b : shownProduct) : completion Z :=
  c <- comparison sortColumn a b ;;
  Returns (match sortBy with desc => (- c)%Z | _ => c end).

Definition sortView (sortBy : SortBy) (sortColumn : SortColumn)
    (filtered : list shownProduct) : completion (list shownProduct) :=
  match sortBy with
  | none => Returns filtered
  | _ => sortWith (comparator sortBy sortColumn) filtered
  end.

(** The body of the [useMemo] callback. *)
Definition filteredProducts (products : list product) (searchTerm : jsstring)
    (sortBy : SortBy) (sortColumn : SortColumn) (selectedDate : jsstring)
    : completion (list shownProduct) :=
  let filtered := dateFilter selectedDate products in
  filtered <- textFilter searchTerm filtered ;;
  let filtered := aggregate filtered in
  let filtered := annotate filtered in
  sortView sortBy sortColumn filtered.

End View.

End Untyped.

(** A typed row, product and displayed product as the untyped code sees
    them. *)
Definition looseRow (r : RawRow) : Untyped.RawRow :=
  map (fun kv => (fst kv, Untyped.VString (snd kv))) r.

Definition loosen (p : product) : Untyped.product :=
  Untyped.mkProduct (Untyped.VNumber (id p)) (Untyped.VString (name p))
    (Untyped.VString (quantity p)) (Untyped.VString (originalQuantity p))
    (Untyped.VString (date p)) (Untyped.VString (uniqueKey p)).

Definition loosenShown (s : shownProduct) : Untyped.shownProduct :=
  Untyped.mkShown (loosen (item s)) (duplicateCount s) (isDuplicate s).

(** The one thing the view asks of a record: its name is a string. *)
Definition hasStringName (p : Untyped.product) : Prop :=
  exists s, Untyped.name p = Untyped.VString s.

(** A record whose name is [undefined], as no row of a file gives. *)
Definition namelessProduct (quantityText : jsstring) : Untyped.product :=
  Untyped.mkProduct (Untyped.VNumber 1) Untyped.VUndefined
    (Untyped.VString quantityText) (Untyped.VString quantityText)
    (Untyped.VString defaultDate)
    (Untyped.VString (js "undefined-" ++ quantityText)).

(* ================================================================== *)
(** * Inputs of the examples *)
(* ================================================================== *)

(** A CSV row with the two lower-case columns. *)
Definition row (productName quantityText : jsstring) : RawRow :=
  [(col_urun, productName); (col_miktar, quantityText)].

(** Two rows of 5 * 10^20 kg each. *)
Definition hugeRows : list RawRow :=
  [ row (js "Un") (js "500000000000000000000 kg");
    row (js "Un") (js "500000000000000000000 kg") ].

(** The two products of the collision: different names, different
    quantity texts, the same key "Elma-2-3 kg". *)
Definition collidingRows : list RawRow :=
  [ row (js "Elma-2") (js "3 kg"); row (js "Elma") (js "2-3 kg") ].

(** The rows of the end-to-end example. *)
Definition exampleRows : list RawRow :=
  [ row (js "Elma") (js "2 kg"); row (js "Elma") (js "3 kg");
    row (js "Armut") (js "1 adet") ].

(** The same rows with the second quantity equal to the first. *)
Definition repeatedRows : list RawRow :=
  [ row (js "Elma") (js "2 kg"); row (js "Elma") (js "2 kg");
    row (js "Armut") (js "1 adet") ].


(** An incomplete row followed by a complete one. *)
Definition rowsWithGap : list RawRow :=
  [ row (js "  ") (js "1 kg"); row (js " Elma ") (js "2 kg") ].

(** Two rows of a product called "constructor", in two units. *)
Definition constructorRows : list RawRow :=
  [ row (js "constructor") (js "5 kg"); row (js "constructor") (js "3 kasa") ].

(** Two products whose names differ only in the case of a letter. *)
Definition caseRows : list RawRow :=
  [ row (js "Elma") (js "1 kg"); row (js "elma") (js "2 kg") ].

(** Rows of three different products. *)
Definition threeProductsRows : list RawRow :=
  [ row (js "Elma") (js "2 kg"); row (js "Armut") (js "1 adet");
    row (js "Domates") (js "5 kg") ].

(* ================================================================== *)
(** * Strings: basic facts *)
(* ================================================================== *)

Lemma eqb_str_eq : forall a b, eqb_str a b = true <-> a = b.
Proof.
  induction a as [|x a IH]; destruct b as [|y b]; simpl; split; intro H;
    try reflexivity; try discriminate.
  - apply andb_true_iff in H. destruct H as [Hxy Hab].
    apply N.eqb_eq in Hxy. apply IH in Hab. now subst.
  - injection H as -> ->. rewrite N.eqb_refl. simpl. now apply IH.
Qed.

Lemma eqb_str_refl : forall a, eqb_str a a = true.
Proof. intro a. now apply eqb_str_eq. Qed.

Lemma eqb_str_neq : forall a b, eqb_str a b = false <-> a <> b.
Proof.
  intros a b. split.
  - intros H E. apply eqb_str_eq in E. congruence.
  - intro H. destruct (eqb_str a b) eqn:E; [|reflexivity].
    apply eqb_str_eq in E. contradiction.
Qed.

Lemma eqb_str_sym : forall a b, eqb_str a b = eqb_str b a.
Proof.
  intros a b. destruct (eqb_str a b) eqn:E.
  - apply eqb_str_eq in E. subst. symmetry. apply eqb_str_refl.
  - apply eqb_str_neq in E. symmetry. apply eqb_str_neq. congruence.
Qed.

(* ================================================================== *)
(** * [parseQuantity]: the sum of the maximal digit runs *)
(* ================================================================== *)

Lemma digitPrefix_allDigits : forall s, allDigits (digitPrefix s).
Proof.
  induction s as [|c r IH]; simpl; [constructor|].
  destruct (isDigit c) eqn:E; constructor; assumption.
Qed.

Lemma digitPrefix_split : forall s,
  s = digitPrefix s ++ skipn (List.length (digitPrefix s)) s.
Proof.
  induction s as [|c r IH]; simpl; [reflexivity|].
  destruct (isDigit c); simpl; [now rewrite <- IH|reflexivity].
Qed.

Lemma digitPrefix_rest : forall s,
  digitFree (skipn (List.length (digitPrefix s)) s).
Proof.
  induction s as [|c r IH]; simpl; [exact I|].
  destruct (isDigit c) eqn:E; simpl; assumption.
Qed.

Lemma digitPrefix_run : forall run rest,
  allDigits run -> digitFree rest -> digitPrefix (run ++ rest) = run.
Proof.
  induction run as [|c run IH]; intros rest Hrun Hrest; simpl.
  - destruct rest as [|d rest]; [reflexivity|]. simpl in Hrest.
    simpl. now rewrite Hrest.
  - inversion Hrun as [|? ? Hc Hrun']; subst. rewrite Hc.
    now rewrite IH.
Qed.

Lemma DigitRuns_skip : forall c s runs,
  isDigit c = false -> DigitRuns s runs -> DigitRuns (c :: s) runs.
Proof.
  intros c s runs Hc H. destruct H as [s Hs|pre run rest runs Hp Hne Hr Hf Hrest].
  - apply runs_none. now constructor.
  - change (c :: pre ++ run ++ rest) with ((c :: pre) ++ run ++ rest).
    apply runs_next; try assumption. now constructor.
Qed.

Lemma matchDigitsLoop_runs : forall fuel s,
  (List.length s <= fuel)%nat -> DigitRuns s (matchDigitsLoop fuel s).
Proof.
  induction fuel as [|fuel IH]; intros s Hlen.
  - destruct s; [|simpl in Hlen; lia]. apply runs_none. constructor.
  - destruct s as [|c r]; [apply runs_none; constructor|].
    cbn [matchDigitsLoop].
    destruct (digitPrefix (c :: r)) as [|d m] eqn:E.
    + simpl in E. destruct (isDigit c) eqn:Hc; [discriminate|].
      apply DigitRuns_skip; [assumption|]. apply IH. simpl in Hlen. lia.
    + pose proof (digitPrefix_split (c :: r)) as Hsplit.
      pose proof (digitPrefix_rest (c :: r)) as Hrest.
      pose proof (digitPrefix_allDigits (c :: r)) as Hall.
      rewrite E in Hsplit, Hrest, Hall.
      set (rest := skipn (List.length (d :: m)) (c :: r)) in *.
      rewrite Hsplit at 1.
      change ((d :: m) ++ rest) with ([] ++ (d :: m) ++ rest).
      apply runs_next; try assumption; [constructor|discriminate|].
      apply IH.
      assert (Hl : List.length (c :: r)
                   = (List.length (d :: m) + List.length rest)%nat).
      { rewrite Hsplit at 1. apply length_app. }
      simpl in Hl, Hlen. lia.
Qed.

Lemma matchDigitsLoop_noDigit : forall fuel s,
  noDigit s -> matchDigitsLoop fuel s = [].
Proof.
  induction fuel as [|fuel IH]; intros s Hs; [reflexivity|].
  destruct s as [|c r]; [reflexivity|].
  inversion Hs as [|? ? Hc Hr]; subst.
  cbn [matchDigitsLoop]. simpl digitPrefix. rewrite Hc. now apply IH.
Qed.

Lemma matchDigitsLoop_skip : forall pre fuel s,
  noDigit pre ->
  matchDigitsLoop (List.length pre + fuel) (pre ++ s) = matchDigitsLoop fuel s.
Proof.
  induction pre as [|c pre IH]; intros fuel s Hp; [reflexivity|].
  inversion Hp as [|? ? Hc Hp']; subst.
  cbn [List.length Nat.add app matchDigitsLoop]. simpl digitPrefix.
  rewrite Hc. now apply IH.
Qed.

(** Fuel beyond the length of the text changes nothing. *)
Lemma matchDigitsLoop_complete : forall s runs,
  DigitRuns s runs ->
  forall fuel, (List.length s <= fuel)%nat -> matchDigitsLoop fuel s = runs.
Proof.
  induction 1 as [s Hs|pre run rest runs Hp Hne Hr Hf Hrest IH]; intros fuel Hlen.
  - now apply matchDigitsLoop_noDigit.
  - rewrite !length_app in Hlen.
    replace fuel with (List.length pre + (fuel - List.length pre))%nat by lia.
    rewrite matchDigitsLoop_skip by assumption.
    destruct run as [|d run]; [congruence|].
    destruct (fuel - List.length pre)%nat as [|fuel'] eqn:Ef;
      [simpl in Hlen; lia|].
    cbn [matchDigitsLoop app].
    change (d :: run ++ rest) with ((d :: run) ++ rest).
    rewrite digitPrefix_run by assumption.
    rewrite skipn_app, skipn_all, Nat.sub_diag. simpl skipn.
    f_equal. apply IH. simpl in Hlen. lia.
Qed.

Lemma matchDigits_runs : forall s, DigitRuns s (matchDigits s).
Proof. intro s. apply matchDigitsLoop_runs. lia. Qed.

Lemma DigitRuns_unique : forall s runs, DigitRuns s runs -> runs = matchDigits s.
Proof.
  intros s runs H. symmetry. now apply matchDigitsLoop_complete.
Qed.

Lemma parseInt10_fold : forall run acc,
  fold_left (fun a c => 10 * a + digitValue c) run acc
  = acc * 10 ^ N.of_nat (List.length run) + decimalValue run.
Proof.
  induction run as [|c r IH]; intro acc.
  - simpl. lia.
  - cbn [fold_left decimalValue List.length]. rewrite IH.
    rewrite Nat2N.inj_succ, N.pow_succ_r'. lia.
Qed.

Lemma parseInt10_decimalValue : forall run,
  parseInt10 run = toDouble (decimalValue run).
Proof. intro run. unfold parseInt10. now rewrite parseInt10_fold. Qed.

(** Rounding leaves the integers below 2^53 alone and keeps the others at
    or above 2^53. *)
Lemma toDouble_exact : forall n, n < safeLimit -> toDouble n = n.
Proof.
  intros n H. unfold toDouble. apply N.ltb_lt in H. now rewrite H.
Qed.

Lemma safeLimit_infinity : safeLimit <= infinity.
Proof. apply N.leb_le. vm_compute. reflexivity. Qed.

Lemma toDouble_large : forall n, safeLimit <= n -> safeLimit <= toDouble n.
Proof.
  intros n Hn. unfold toDouble.
  destruct (n <? safeLimit) eqn:E; [apply N.ltb_lt in E; lia|]. cbv zeta.
  set (e := N.log2 n - 52). set (q := n / 2 ^ e).
  set (q' := if n mod 2 ^ e <? 2 ^ (e - 1) then q
             else if 2 ^ (e - 1) <? n mod 2 ^ e then q + 1
             else if N.even q then q else q + 1).
  assert (Hlog : 53 <= N.log2 n).
  { change 53 with (N.log2 safeLimit). now apply N.log2_le_mono. }
  assert (Hpos : 0 < n) by (unfold safeLimit in Hn; lia).
  destruct (N.log2_spec n Hpos) as [Hlo _].
  assert (He : N.log2 n = e + 52) by (unfold e; lia).
  assert (Hpe : 2 ^ e <> 0) by (apply N.pow_nonzero; discriminate).
  assert (Hq : 2 ^ 52 <= q).
  { unfold q. apply N.div_le_lower_bound; [assumption|].
    rewrite <- N.pow_add_r. now rewrite <- He. }
  clearbody q.
  assert (Hq' : q <= q').
  { unfold q'. repeat destruct (_ <? _); try destruct (N.even q);
      try apply N.le_refl; apply N.le_add_r. }
  clearbody q'.
  assert (H2 : 2 ^ 1 <= 2 ^ e).
  { apply N.pow_le_mono_r; [discriminate|lia]. }
  assert (Hv : safeLimit <= q' * 2 ^ e).
  { change safeLimit with (2 ^ 52 * 2 ^ 1).
    apply N.mul_le_mono; [now transitivity q|assumption]. }
  destruct (infinity <=? q' * 2 ^ e); [apply safeLimit_infinity|assumption].
Qed.

Lemma toDouble_small : forall n,
  toDouble n < safeLimit -> n < safeLimit /\ toDouble n = n.
Proof.
  intros n H. destruct (N.lt_ge_cases n safeLimit) as [Hn|Hn].
  - split; [assumption|now apply toDouble_exact].
  - apply toDouble_large in Hn. lia.
Qed.

(** [toDouble] rounds to a nearest double. *)
Lemma gap_multiple : forall n p k,
  p <> 0 -> N.min (n mod p) (p - n mod p) <= gap (k * p) n.
Proof.
  intros n p k Hp.
  pose proof (N.div_mod n p Hp) as Hdm.
  pose proof (N.mod_upper_bound n p Hp) as Hm.
  remember (n mod p) as r. remember (n / p) as q.
  unfold gap. destruct (N.ltb_spec (k * p) n) as [H|H].
  - assert (k <= q) by nia. nia.
  - destruct (N.eq_dec r 0) as [E|E]; [lia|].
    assert (q + 1 <= k) by nia. nia.
Qed.

Lemma toDouble_cases : forall n,
  safeLimit <= n ->
  exists e q r,
    1 <= e /\ 2 ^ 52 <= q < 2 ^ 53 /\ r < 2 ^ e /\ n = q * 2 ^ e + r
    /\ (toDouble n = infinity /\ infinity <= (q + 1) * 2 ^ e
        \/ exists q', (q' = q \/ q' = q + 1)
             /\ toDouble n = q' * 2 ^ e
             /\ q' * 2 ^ e < infinity
             /\ gap (q' * 2 ^ e) n = N.min r (2 ^ e - r)).
Proof.
  intros n Hn. unfold toDouble.
  destruct (n <? safeLimit) eqn:E; [apply N.ltb_lt in E; lia|]. cbv zeta.
  assert (Hlog : 53 <= N.log2 n).
  { change 53 with (N.log2 safeLimit). now apply N.log2_le_mono. }
  assert (Hpos : 0 < n) by (unfold safeLimit in Hn; lia).
  destruct (N.log2_spec n Hpos) as [Hlo Hhi].
  set (e := N.log2 n - 52) in *.
  assert (He : N.log2 n = e + 52) by (unfold e; lia).
  assert (He1 : 1 <= e) by lia.
  assert (Hpe : 2 ^ e <> 0) by (apply N.pow_nonzero; discriminate).
  rewrite He in Hlo. rewrite He in Hhi.
  rewrite N.pow_add_r in Hlo.
  replace (N.succ (e + 52)) with (e + 53) in Hhi by lia.
  rewrite N.pow_add_r in Hhi.
  assert (Hhalf : 2 ^ e = 2 * 2 ^ (e - 1)).
  { rewrite <- N.pow_succ_r'. f_equal. lia. }
  pose proof (N.div_mod n (2 ^ e) Hpe) as Hdm.
  pose proof (N.mod_upper_bound n (2 ^ e) Hpe) as Hm.
  assert (Hq1 : 2 ^ 52 <= n / 2 ^ e)
    by (apply N.div_le_lower_bound; [assumption|lia]).
  assert (Hq2 : n / 2 ^ e < 2 ^ 53)
    by (apply N.Div0.div_lt_upper_bound; lia).
  remember (n / 2 ^ e) as q eqn:Eq. remember (n mod 2 ^ e) as r eqn:Er.
  remember (2 ^ e) as p eqn:Ep. remember (2 ^ (e - 1)) as h eqn:Eh.
  exists e, q, r. rewrite <- Ep.
  split; [assumption|]. split; [split; assumption|].
  split; [assumption|]. split; [lia|].
  set (q' := if r <? h then q else if h <? r then q + 1
             else if N.even q then q else q + 1).
  assert (Hq' : (q' = q /\ r <= h) \/ (q' = q + 1 /\ h <= r)).
  { unfold q'. destruct (N.ltb_spec r h); [left; split; [reflexivity|lia]|].
    destruct (N.ltb_spec h r); [right; split; [reflexivity|lia]|].
    destruct (N.even q); [left|right]; (split; [reflexivity|lia]). }
  clearbody q'.
  destruct (N.leb_spec infinity (q' * p)) as [Hinf|Hfin].
  - left. split; [reflexivity|]. destruct Hq' as [[-> _]|[-> _]]; nia.
  - right. exists q'. split; [tauto|]. split; [reflexivity|].
    split; [assumption|].
    unfold gap. destruct Hq' as [[-> Hr]|[-> Hr]].
    + destruct (N.ltb_spec (q * p) n); lia.
    + destruct (N.ltb_spec ((q + 1) * p) n); nia.
Qed.

Lemma pow2_lt_exponent : forall a b, 2 ^ a < 2 ^ b -> a < b.
Proof. intros a b H. apply (N.pow_lt_mono_r_iff 2); [reflexivity|assumption]. Qed.

(** What [toDouble] returns is a double or [infinity]. *)
Lemma toDouble_isDouble : forall n,
  toDouble n = infinity \/ isDouble (toDouble n).
Proof.
  intro n. destruct (N.lt_ge_cases n safeLimit) as [Hn|Hn].
  - right. left. unfold toDouble. apply N.ltb_lt in Hn. rewrite Hn.
    now apply N.ltb_lt.
  - destruct (toDouble_cases n Hn)
      as [e [q [r [He [[Hq1 Hq2] [Hr [Hn' [[H _]|[q' [Hq' [H [Hfin _]]]]]]]]]]]];
      [now left|].
    right. right. rewrite H.
    assert (Hpe : 0 < 2 ^ e) by (apply N.neq_0_lt_0, N.pow_nonzero; discriminate).
    assert (Hlow : 2 ^ (52 + e) < infinity).
    { rewrite N.pow_add_r. destruct Hq' as [->| ->]; nia. }
    change infinity with (2 ^ 1024) in Hlow. apply pow2_lt_exponent in Hlow.
    destruct (N.eq_dec q' (2 ^ 53)) as [E|E].
    + exists (2 ^ 52), (e + 1). split; [split; [lia|reflexivity]|].
      assert (Hup : 2 ^ (53 + e) < infinity)
        by (rewrite N.pow_add_r; rewrite <- E; exact Hfin).
      change infinity with (2 ^ 1024) in Hup. apply pow2_lt_exponent in Hup.
      split; [lia|]. rewrite E, N.pow_add_r. change (2 ^ 53) with (2 ^ 52 * 2 ^ 1).
      lia.
    + exists q', e. split; [destruct Hq' as [->| ->]; lia|]. split; [lia|reflexivity].
Qed.

(** And no double is nearer to [n]. *)
Lemma toDouble_nearest : forall n d,
  isDouble d -> toDouble n <> infinity -> gap (toDouble n) n <= gap d n.
Proof.
  intros n d Hd Hfin. destruct (N.lt_ge_cases n safeLimit) as [Hn|Hn].
  - unfold toDouble. pose proof Hn as Hb. apply N.ltb_lt in Hb. rewrite Hb.
    unfold gap. rewrite N.ltb_irrefl. lia.
  - destruct (toDouble_cases n Hn)
      as [e [q [r [He [[Hq1 Hq2] [Hr [Hn' [[H _]|[q' [Hq' [H [_ Hgap]]]]]]]]]]]];
      [contradiction|].
    rewrite H, Hgap.
    assert (Hpe : 2 ^ e <> 0) by (apply N.pow_nonzero; discriminate).
    assert (Hmod : n mod 2 ^ e = r).
    { rewrite Hn', N.add_comm, N.Div0.mod_add. now apply N.mod_small. }
    assert (Hbelow : forall d', d' < 2 ^ 52 * 2 ^ e ->
              N.min r (2 ^ e - r) <= gap d' n).
    { intros d' Hd'. unfold gap. destruct (N.ltb_spec d' n); nia. }
    destruct Hd as [Hd|[m [e' [[Hm1 Hm2] [_ ->]]]]].
    + apply Hbelow. assert (2 ^ 1 <= 2 ^ e)
        by (apply N.pow_le_mono_r; [discriminate|lia]).
      change safeLimit with (2 ^ 52 * 2 ^ 1) in Hd. nia.
    + destruct (N.lt_ge_cases e' e) as [Hlt|Hge].
      * apply Hbelow.
        assert (Hp : 2 ^ (e' + 1) <= 2 ^ e)
          by (apply N.pow_le_mono_r; [discriminate|lia]).
        rewrite N.pow_add_r in Hp. change (2 ^ 1) with 2 in Hp.
        change (2 ^ 53) with (2 ^ 52 * 2) in Hm2.
        assert (0 < 2 ^ e') by (apply N.neq_0_lt_0, N.pow_nonzero; discriminate).
        nia.
      * assert (Ee : 2 ^ e' = 2 ^ (e' - e) * 2 ^ e)
          by (rewrite <- N.pow_add_r; f_equal; lia).
        rewrite Ee, N.mul_assoc, <- Hmod.
        now apply gap_multiple.
Qed.

(** The additions of [parseQuantity] are exact as long as the sum of the
    runs stays below 2^53, and a result below 2^53 shows that it did. *)
Lemma fold_add_exact : forall numbers acc,
  acc + sumList (map decimalValue numbers) < safeLimit ->
  fold_left (fun sum num => addNumbers sum (parseInt10 num)) numbers acc
  = acc + sumList (map decimalValue numbers).
Proof.
  induction numbers as [|x l IH]; intros acc H; simpl in *; [lia|].
  rewrite parseInt10_decimalValue.
  rewrite (toDouble_exact (decimalValue x)) by lia.
  unfold addNumbers. rewrite toDouble_exact by lia.
  rewrite IH; lia.
Qed.

Lemma fold_add_small : forall numbers acc,
  fold_left (fun sum num => addNumbers sum (parseInt10 num)) numbers acc
    < safeLimit ->
  acc + sumList (map decimalValue numbers) < safeLimit.
Proof.
  induction numbers as [|x l IH]; intros acc H; simpl in *; [lia|].
  apply IH in H.
  assert (H1 : addNumbers acc (parseInt10 x) < safeLimit) by lia.
  unfold addNumbers in H1. apply toDouble_small in H1 as [H1 E1].
  assert (H2 : parseInt10 x < safeLimit) by lia.
  rewrite parseInt10_decimalValue in H2. apply toDouble_small in H2 as [H2 E2].
  unfold addNumbers in H. rewrite E1, parseInt10_decimalValue, E2 in H. lia.
Qed.

Lemma parseQuantity_sum : forall s,
  sumList (map decimalValue (matchDigits s)) < safeLimit ->
  parseQuantity s = sumList (map decimalValue (matchDigits s)).
Proof.
  intros s H. unfold parseQuantity.
  destruct (matchDigits s) as [|m ms]; [reflexivity|].
  now rewrite fold_add_exact.
Qed.

Lemma parseQuantity_small : forall s,
  parseQuantity s < safeLimit ->
  parseQuantity s = sumList (map decimalValue (matchDigits s)).
Proof.
  intros s H. apply parseQuantity_sum. unfold parseQuantity in H.
  destruct (matchDigits s) as [|m ms]; [exact H|].
  apply fold_add_small in H. lia.
Qed.

Lemma parseQuantity_noDigit : forall s, noDigit s -> parseQuantity s = 0.
Proof.
  intros s Hs. unfold parseQuantity, matchDigits.
  now rewrite matchDigitsLoop_noDigit.
Qed.

Lemma parseQuantity_roundedSum : forall s,
  parseQuantity s = roundedSum (map decimalValue (matchDigits s)).
Proof.
  intro s. unfold parseQuantity, roundedSum.
  assert (H : forall numbers acc,
    fold_left (fun sum num => addNumbers sum (parseInt10 num)) numbers acc
    = fold_left (fun sum v => toDouble (sum + toDouble v))
        (map decimalValue numbers) acc).
  { induction numbers as [|x l IH]; intro acc; [reflexivity|].
    simpl. rewrite IH. unfold addNumbers.
    now rewrite parseInt10_decimalValue. }
  destruct (matchDigits s) as [|m ms]; [reflexivity|apply H].
Qed.

(** C3, amended.  Every text has one list of maximal runs of decimal
    digits, and [parseQuantity] returns the sum of the runs, each read as
    a numeral in base ten, as double arithmetic computes it from left to
    right: every run and every partial sum is rounded to the nearest
    double.  Whenever the exact sum is below 2^53 nothing is rounded and
    the result is the exact sum; it is 0 when the text has no digit.  In
    particular "3 kg 2 adet" gives 5, and "kasa" and the empty text give
    0. *)
Theorem parseQuantity_sums_digit_runs :
  (forall s, exists runs,
      DigitRuns s runs
      /\ (forall runs', DigitRuns s runs' -> runs' = runs)
      /\ parseQuantity s = roundedSum (map decimalValue runs)
      /\ (sumList (map decimalValue runs) < safeLimit ->
          parseQuantity s = sumList (map decimalValue runs)))
  /\ (forall s, noDigit s -> parseQuantity s = 0)
  /\ parseQuantity (js "3 kg 2 adet") = 5
  /\ parseQuantity (js "kasa") = 0
  /\ parseQuantity [] = 0.
Proof.
  split; [|split; [|repeat split]].
  - intro s. exists (matchDigits s). split; [apply matchDigits_runs|].
    split; [apply DigitRuns_unique|].
    split; [apply parseQuantity_roundedSum|apply parseQuantity_sum].
  - apply parseQuantity_noDigit.
Qed.

(** At two concrete inputs: the runs of "12 kasa 30" are "12" and "30",
    their sum 42 is below 2^53, and 42 is what [parseQuantity] returns;
    "kasa" has no digit and gives 0. *)
Lemma parseQuantity_exact_sum_witness :
  (DigitRuns (js "12 kasa 30") [js "12"; js "30"]
   /\ sumList (map decimalValue [js "12"; js "30"]) < safeLimit
   /\ parseQuantity (js "12 kasa 30") = 42)
  /\ (noDigit (js "kasa") /\ parseQuantity (js "kasa") = 0).
Proof.
  assert (Hr : DigitRuns (js "12 kasa 30") [js "12"; js "30"]).
  { assert (E : matchDigits (js "12 kasa 30") = [js "12"; js "30"])
      by (vm_compute; reflexivity).
    rewrite <- E. apply matchDigits_runs. }
  assert (H : noDigit (js "kasa")) by (repeat constructor).
  split; [split; [exact Hr|split; [vm_compute; reflexivity|]]|split; [exact H|]].
  - destruct (proj1 parseQuantity_sums_digit_runs (js "12 kasa 30"))
      as [runs [_ [Hu [_ Hsum]]]].
    rewrite <- (Hu _ Hr) in Hsum. rewrite Hsum; vm_compute; reflexivity.
  - exact (proj1 (proj2 parseQuantity_sums_digit_runs) (js "kasa") H).
Defined.

(** C3, as stated, fails: the text "9007199254740993 kg" has one run,
    which writes 2^53 + 1.  That integer is no double: [parseInt] returns
    2^53, and so does [parseQuantity]. *)
Lemma parseQuantity_rounds_from_safeLimit :
  DigitRuns (js "9007199254740993 kg") [js "9007199254740993"]
  /\ sumList (map decimalValue [js "9007199254740993"]) = 9007199254740993
  /\ parseQuantity (js "9007199254740993 kg") = 9007199254740992
  /\ parseQuantity (js "9007199254740993 kg")
     <> sumList (map decimalValue [js "9007199254740993"]).
Proof.
  assert (E : matchDigits (js "9007199254740993 kg") = [js "9007199254740993"])
    by (vm_compute; reflexivity).
  split; [rewrite <- E; apply matchDigits_runs|].
  split; [vm_compute; reflexivity|].
  split; [vm_compute; reflexivity|]. vm_compute. discriminate.
Qed.

(* ================================================================== *)
(** * [getUnit]: the leftmost unit, in the casing of the text *)
(* ================================================================== *)

Lemma occursAt_shift : forall tok c r j,
  occursAt tok (c :: r) (S j) <-> occursAt tok r j.
Proof.
  intros tok c r j. unfold occursAt, slice. simpl. split; intros [H1 H2];
    (split; [lia|assumption]).
Qed.

Lemma matchToken_Some : forall tok s m,
  matchToken tok s = Some m ->
  m = slice s 0 (List.length tok) /\ occursAt tok s 0.
Proof.
  unfold occursAt, slice, sameLetters. simpl skipn.
  induction tok as [|p tok IH]; intros s m H.
  - simpl in H. injection H as <-. simpl. split; [reflexivity|].
    split; [lia|reflexivity].
  - destruct s as [|c s]; [discriminate|]. simpl in H.
    destruct (canonicalize p =? canonicalize c) eqn:E; [|discriminate].
    apply N.eqb_eq in E.
    destruct (matchToken tok s) as [m'|] eqn:Em; [|discriminate].
    injection H as <-. destruct (IH s m' Em) as [-> [Hl Hs]].
    simpl. split; [reflexivity|]. split; [lia|]. now rewrite E, Hs.
Qed.

Lemma matchToken_None : forall tok s,
  matchToken tok s = None -> ~ occursAt tok s 0.
Proof.
  unfold occursAt, slice, sameLetters. simpl skipn.
  induction tok as [|p tok IH]; intros s H [Hl Hs]; [discriminate|].
  destruct s as [|c s]; [simpl in Hl; lia|]. simpl in H, Hl, Hs.
  injection Hs as Hc Hs.
  rewrite Hc, N.eqb_refl in H.
  destruct (matchToken tok s) eqn:Em; [discriminate|].
  apply (IH s Em). split; [lia|assumption].
Qed.

Lemma matchAlternatives_Some : forall toks s m,
  matchAlternatives toks s = Some m ->
  exists tok, In tok toks /\ m = slice s 0 (List.length tok) /\ occursAt tok s 0.
Proof.
  induction toks as [|tok toks IH]; intros s m H; [discriminate|].
  simpl in H. destruct (matchToken tok s) as [m'|] eqn:E.
  - injection H as <-. exists tok. split; [now left|].
    now apply matchToken_Some.
  - destruct (IH s m H) as [tok' [Hin Hrest]]. exists tok'.
    split; [now right|assumption].
Qed.

Lemma matchAlternatives_None : forall toks s,
  matchAlternatives toks s = None ->
  forall tok, In tok toks -> ~ occursAt tok s 0.
Proof.
  induction toks as [|tok toks IH]; intros s H tok' Hin; [contradiction|].
  simpl in H. destruct (matchToken tok s) eqn:E; [discriminate|].
  destruct Hin as [<-|Hin]; [now apply matchToken_None|now apply IH].
Qed.

Lemma firstUnit_Some : forall s m,
  firstUnit s = Some m ->
  exists tok i,
    In tok units /\ occursAt tok s i
    /\ (forall tok' j, In tok' units -> occursAt tok' s j -> (i <= j)%nat)
    /\ m = slice s i (List.length tok).
Proof.
  induction s as [|c r IH]; intros m H.
  - cbn [firstUnit] in H.
    destruct (matchAlternatives units []) as [m'|] eqn:E; [|discriminate].
    injection H as <-.
    destruct (matchAlternatives_Some _ _ _ E) as [tok [Hin [Hm Hocc]]].
    exists tok, 0%nat. repeat split; try assumption; try lia; apply Hocc.
  - cbn [firstUnit] in H.
    destruct (matchAlternatives units (c :: r)) as [m'|] eqn:E.
    + injection H as <-.
      destruct (matchAlternatives_Some _ _ _ E) as [tok [Hin [Hm Hocc]]].
      exists tok, 0%nat. repeat split; try assumption; try lia; apply Hocc.
    + destruct (IH m H) as [tok [i [Hin [Hocc [Hmin Hm]]]]].
      exists tok, (S i). split; [assumption|].
      split; [now apply occursAt_shift|]. split; [|assumption].
      intros tok' j Hin' Hocc'. destruct j as [|j].
      * exfalso. exact (matchAlternatives_None _ _ E tok' Hin' Hocc').
      * apply occursAt_shift in Hocc'. specialize (Hmin tok' j Hin' Hocc'). lia.
Qed.

Lemma firstUnit_None : forall s,
  firstUnit s = None ->
  forall tok i, In tok units -> ~ occursAt tok s i.
Proof.
  induction s as [|c r IH]; intros H tok i Hin Hocc; cbn [firstUnit] in H.
  - destruct (matchAlternatives units []) eqn:E; [discriminate|].
    destruct i as [|i].
    + exact (matchAlternatives_None _ _ E tok Hin Hocc).
    + destruct Hocc as [Hl _]. simpl in Hl. lia.
  - destruct (matchAlternatives units (c :: r)) eqn:E; [discriminate|].
    destruct i as [|i].
    + exact (matchAlternatives_None _ _ E tok Hin Hocc).
    + apply occursAt_shift in Hocc. exact (IH H tok i Hin Hocc).
Qed.

Lemma isPrefixOf_firstn : forall (s : jsstring) n m,
  (n <= m)%nat -> isPrefixOf (firstn n s) (firstn m s) = true.
Proof.
  induction s as [|y s IH]; intros n m Hnm.
  - now rewrite !firstn_nil.
  - destruct n as [|n]; [reflexivity|]. destruct m as [|m]; [lia|].
    simpl. rewrite N.eqb_refl. simpl. apply IH. lia.
Qed.

Lemma units_prefix_free : forall tok tok' s i,
  In tok units -> In tok' units ->
  occursAt tok s i -> occursAt tok' s i -> tok = tok'.
Proof.
  intros tok tok' s i Hin Hin' [Hl Hs] [Hl' Hs'].
  unfold sameLetters, slice in *.
  assert (Hpre : forall a b, In a units -> In b units ->
            isPrefixOf (map canonicalize a) (map canonicalize b) = true -> a = b).
  { intros a b Ha Hb. unfold units in Ha, Hb. simpl in Ha, Hb.
    repeat (destruct Ha as [<-|Ha]; [
      repeat (destruct Hb as [<-|Hb]; [vm_compute; congruence|]);
      contradiction|]).
    contradiction. }
  destruct (Nat.le_ge_cases (List.length tok) (List.length tok')) as [Hle|Hle].
  - apply Hpre; try assumption. rewrite <- Hs, <- Hs', <- !firstn_map.
    now apply isPrefixOf_firstn.
  - symmetry. apply Hpre; try assumption. rewrite <- Hs, <- Hs', <- !firstn_map.
    now apply isPrefixOf_firstn.
Qed.

(** What the regular expression finds.  For every text, [getUnit] returns
    the text found at the first place where a unit of the vocabulary
    occurs, letters being compared as the [i] flag compares them, in the
    casing the text has there, and the literal "adet" when no unit occurs
    anywhere. *)
Theorem getUnit_first_occurrence :
  (forall s,
      (getUnit s = js "adet"
       /\ forall tok i, In tok units -> ~ occursAt tok s i)
      \/
      (exists tok i,
          In tok units
          /\ occursAt tok s i
          /\ (forall tok' j, In tok' units -> occursAt tok' s j ->
                (i <= j)%nat /\ (j = i -> tok' = tok))
          /\ getUnit s = slice s i (List.length tok)))
  /\ getUnit (js "12 Kasa") = js "Kasa"
  /\ getUnit (js "7") = js "adet".
Proof.
  split; [|split; reflexivity].
  intro s. unfold getUnit. destruct (firstUnit s) as [m|] eqn:E.
  - right. destruct (firstUnit_Some s m E) as [tok [i [Hin [Hocc [Hmin Hm]]]]].
    exists tok, i. repeat split; try assumption; try apply Hocc.
    + now apply (Hmin tok' j).
    + intros ->. now apply (units_prefix_free tok' tok s i).
  - left. split; [reflexivity|]. now apply firstUnit_None.
Qed.

(** Upper-case letters match their lower-case partners, c-cedilla
    included; a capital I is not the partner of the dotless i. *)
Example getUnit_ignores_case :
  getUnit (js "3 KG") = js "KG"
  /\ getUnit (js "2 " ++ [199] ++ js "UVAL") = [199] ++ js "UVAL"
  /\ getUnit (js "4 SALKIM") = js "adet"
  /\ getUnit (js "4 salk" ++ [dotless_i] ++ js "m") = js "salk" ++ [dotless_i] ++ js "m".
Proof. repeat split. Qed.

(** C4.  A unit is to be found whatever the case of its letters.  The code
    finds nine of the ten units of the vocabulary when they are written in
    capitals, and the two examples of the claim hold, but it does not find
    the tenth: the capitals of [salkim], which is written with a dotless
    i, are "SALKIM", and for "4 SALKIM" the code returns the default
    "adet". *)
Lemma getUnit_misses_capital_salkim :
  (forall tok, In tok units -> tok <> salkim ->
      getUnit (js "4 " ++ map upperLetter tok) = map upperLetter tok)
  /\ In salkim units
  /\ map upperLetter salkim = js "SALKIM"
  /\ getUnit (js "4 " ++ map upperLetter salkim) = js "adet"
  /\ getUnit (js "4 " ++ salkim) = salkim
  /\ getUnit (js "12 Kasa") = js "Kasa"
  /\ getUnit (js "7") = js "adet".
Proof.
  split.
  - intros tok Hin Hne. unfold units in Hin. cbn [In] in Hin.
    repeat (destruct Hin as [<-|Hin]; [try (vm_compute; reflexivity)|]);
      contradiction.
  - split; [unfold units; cbn [In]; tauto|].
    repeat split; vm_compute; reflexivity.
Qed.

(* ================================================================== *)
(** * The text of a merged quantity *)
(* ================================================================== *)

Lemma isDigit_bounds : forall c, isDigit c = true <-> 48 <= c <= 57.
Proof.
  intro c. unfold isDigit. rewrite andb_true_iff, !N.leb_le. tauto.
Qed.

Lemma digitsLoop_spec : forall fuel n acc,
  n < 2 ^ N.of_nat fuel ->
  exists ds,
    digitsLoop fuel n acc = ds ++ acc
    /\ allDigits ds
    /\ (forall a, fold_left (fun a c => 10 * a + digitValue c) ds a
                  = a * 10 ^ N.of_nat (List.length ds) + n)
    /\ (fuel <> O -> ds <> []).
Proof.
  induction fuel as [|fuel IH]; intros n acc Hn.
  - exists []. simpl in *. repeat split; try constructor; try congruence.
    intro a. lia.
  - cbn [digitsLoop].
    pose proof (N.mod_upper_bound n 10 ltac:(discriminate)) as Hm.
    pose proof (N.div_mod n 10 ltac:(discriminate)) as Hdm.
    rewrite Nat2N.inj_succ, N.pow_succ_r' in Hn.
    specialize (IH (n / 10) ((48 + n mod 10) :: acc)).
    remember (n mod 10) as r eqn:Er. remember (n / 10) as q eqn:Eq.
    assert (Hd : isDigit (48 + r) = true) by (apply isDigit_bounds; lia).
    assert (Hv : digitValue (48 + r) = r) by (unfold digitValue; lia).
    destruct (q =? 0) eqn:E.
    + apply N.eqb_eq in E. exists [48 + r].
      repeat split; try (repeat constructor; assumption); try discriminate.
      intro a. cbn [fold_left List.length]. rewrite Hv.
      change (N.of_nat 1) with 1. rewrite N.pow_1_r. lia.
    + apply N.eqb_neq in E.
      destruct IH as [ds [H1 [H2 [H3 _]]]]; [lia|].
      exists (ds ++ [48 + r]). rewrite H1, <- app_assoc.
      repeat split.
      * apply Forall_app. split; [assumption|repeat constructor; assumption].
      * intro a. rewrite fold_left_app, H3. cbn [fold_left]. rewrite Hv.
        rewrite length_app, Nat.add_comm. cbn [List.length Nat.add].
        rewrite Nat2N.inj_succ, N.pow_succ_r'. lia.
      * intros _. destruct ds; discriminate.
Qed.

Lemma decimalDigits_spec : forall n,
  allDigits (decimalDigits n)
  /\ decimalDigits n <> []
  /\ decimalValue (decimalDigits n) = n.
Proof.
  intro n. unfold decimalDigits.
  destruct (digitsLoop_spec (S (N.to_nat (N.log2 n))) n []) as [ds [H1 [H2 [H3 H4]]]].
  - rewrite Nat2N.inj_succ, N2Nat.id.
    destruct (N.eq_dec n 0) as [->|Hn]; [reflexivity|].
    apply N.log2_spec. lia.
  - rewrite H1, app_nil_r. repeat split; [assumption|now apply H4|].
    specialize (H3 0). rewrite parseInt10_fold in H3. lia.
Qed.

(** Below 2^53 the text of a number is its decimal digits. *)
Lemma numberToString_spec : forall n,
  n < safeLimit -> numberToString n = decimalDigits n.
Proof.
  intros n H. unfold numberToString. apply N.ltb_lt in H. now rewrite H.
Qed.

Lemma matchDigits_single : forall ds rest,
  allDigits ds -> ds <> [] -> noDigit rest -> matchDigits (ds ++ rest) = [ds].
Proof.
  intros ds rest Hds Hne Hrest. symmetry. apply DigitRuns_unique.
  change (ds ++ rest) with ([] ++ ds ++ rest).
  apply runs_next; try assumption; [constructor| |now apply runs_none].
  destruct rest as [|c r]; [exact I|]. now inversion Hrest.
Qed.

Lemma parseQuantity_merged : forall n unit,
  n < safeLimit ->
  noDigit unit -> parseQuantity (numberToString n ++ js " " ++ unit) = n.
Proof.
  intros n unit Hn Hu. rewrite numberToString_spec by assumption.
  destruct (decimalDigits_spec n) as [H1 [H2 H3]].
  assert (E : matchDigits (decimalDigits n ++ js " " ++ unit) = [decimalDigits n]).
  { apply matchDigits_single; try assumption.
    constructor; [reflexivity|assumption]. }
  rewrite parseQuantity_sum; rewrite E; cbn [map sumList fold_right];
    rewrite H3; lia.
Qed.

Lemma canonicalize_digit : forall c, isDigit c = true -> canonicalize c = c.
Proof.
  intros c H. apply isDigit_bounds in H. unfold canonicalize.
  replace ((97 <=? c) && (c <=? 122)) with false.
  - replace (c =? c_cedilla) with false
      by (symmetry; apply N.eqb_neq; unfold c_cedilla; lia).
    replace (c =? g_breve) with false
      by (symmetry; apply N.eqb_neq; unfold g_breve; lia).
    reflexivity.
  - symmetry. apply andb_false_iff. left. apply N.leb_gt. lia.
Qed.

Lemma sameLetters_noDigit : forall m tok,
  sameLetters m tok ->
  Forall (fun p => isDigit (canonicalize p) = false) tok ->
  noDigit m.
Proof.
  unfold sameLetters. induction m as [|c m IH]; intros tok H Htok; [constructor|].
  destruct tok as [|p tok]; [discriminate|]. simpl in H. injection H as Hc Hm.
  inversion Htok as [|? ? Hp Htok']; subst. constructor.
  - destruct (isDigit c) eqn:E; [|reflexivity].
    rewrite (canonicalize_digit c E) in Hc. congruence.
  - now apply (IH tok).
Qed.

Lemma units_letters : forall tok,
  In tok units -> Forall (fun p => isDigit (canonicalize p) = false) tok.
Proof.
  intros tok Hin. unfold units in Hin. simpl in Hin.
  repeat (destruct Hin as [<-|Hin]; [repeat constructor|]). contradiction.
Qed.

Lemma getUnit_noDigit : forall q, noDigit (getUnit q).
Proof.
  intro q. unfold getUnit. destruct (firstUnit q) as [m|] eqn:E.
  - destruct (firstUnit_Some q m E) as [tok [i [Hin [[_ Hs] [_ ->]]]]].
    apply (sameLetters_noDigit _ tok); [assumption|now apply units_letters].
  - repeat constructor.
Qed.

(** The magnitude of a merged record is the sum of the two magnitudes,
    as long as the sum is below 2^53. *)
Lemma parseQuantity_combine : forall existing p,
  parseQuantity (quantity existing) + parseQuantity (quantity p) < safeLimit ->
  parseQuantity (quantity (combine existing p))
  = parseQuantity (quantity existing) + parseQuantity (quantity p).
Proof.
  intros existing p H. unfold combine. cbn [quantity].
  unfold addNumbers. rewrite toDouble_exact by assumption.
  apply parseQuantity_merged; [assumption|apply getUnit_noDigit].
Qed.

(* ================================================================== *)
(** * Grouping: the groups, their members and their order *)
(* ================================================================== *)

Lemma filter_filter_comm : forall (A : Type) (f g : A -> bool) l,
  filter f (filter g l) = filter g (filter f l).
Proof.
  intros A f g. induction l as [|x l IH]; [reflexivity|].
  simpl. destruct (f x) eqn:Ef, (g x) eqn:Eg; simpl;
    rewrite ?Ef, ?Eg, IH; reflexivity.
Qed.

Lemma filter_all : forall (A : Type) (f : A -> bool) l,
  (forall x, In x l -> f x = true) -> filter f l = l.
Proof.
  intros A f. induction l as [|x l IH]; intro H; [reflexivity|].
  simpl. rewrite (H x (or_introl eq_refl)). f_equal.
  apply IH. intros y Hy. apply H. now right.
Qed.

Lemma filter_none : forall (A : Type) (f : A -> bool) l,
  (forall x, In x l -> f x = false) -> filter f l = [].
Proof.
  intros A f. induction l as [|x l IH]; intro H; [reflexivity|].
  simpl. rewrite (H x (or_introl eq_refl)).
  apply IH. intros y Hy. apply H. now right.
Qed.

Lemma filter_length_le : forall (A : Type) (f : A -> bool) l,
  (List.length (filter f l) <= List.length l)%nat.
Proof.
  intros A f. induction l as [|x l IH]; simpl; [lia|].
  destruct (f x); simpl; lia.
Qed.

Lemma firstSeen_filter : forall (P : jsstring -> bool) keys,
  firstSeen (filter P keys) = filter P (firstSeen keys).
Proof.
  intros P. induction keys as [|k rest IH]; [reflexivity|].
  cbn [filter firstSeen]. destruct (P k) eqn:E.
  - cbn [firstSeen]. rewrite IH. f_equal. apply filter_filter_comm.
  - rewrite IH, (filter_filter_comm _ P). symmetry. apply filter_all.
    intros x Hx. apply filter_In in Hx. destruct Hx as [_ Hx].
    apply negb_true_iff, eqb_str_neq. intros ->. congruence.
Qed.

Lemma firstSeen_In : forall keys k, In k (firstSeen keys) <-> In k keys.
Proof.
  induction keys as [|k0 rest IH]; intro k; [reflexivity|].
  cbn [firstSeen]. split.
  - intros [->|H]; [now left|]. apply filter_In in H. right.
    now apply IH.
  - intros [->|H]; [now left|].
    destruct (eqb_str k k0) eqn:E.
    + apply eqb_str_eq in E. now left.
    + right. apply filter_In. split; [now apply IH|]. now rewrite E.
Qed.

Lemma firstSeen_NoDup : forall keys, NoDup (firstSeen keys).
Proof.
  induction keys as [|k rest IH]; [constructor|].
  cbn [firstSeen]. constructor.
  - intro H. apply filter_In in H. destruct H as [_ H].
    now rewrite eqb_str_refl in H.
  - now apply NoDup_filter.
Qed.

Lemma map_groupKey_others : forall k l,
  map groupKey (others k l)
  = filter (fun k' => negb (eqb_str k' k)) (map groupKey l).
Proof.
  intros k. induction l as [|p l IH]; [reflexivity|].
  unfold others in *. simpl. destruct (eqb_str (groupKey p) k); simpl;
    now rewrite IH.
Qed.

(** The keys of [groupedProducts] behave as plain insertion-ordered
    properties: a key contains a hyphen, so it is not the decimal text of
    an array index, and [Object.prototype] has no property of that name. *)
Lemma groupKey_has_hyphen : forall p, In hyphen (groupKey p).
Proof.
  intro p. unfold groupKey. apply in_or_app. right. now left.
Qed.

Lemma groupKey_is_no_index : forall p, ~ allDigits (groupKey p).
Proof.
  intros p H. unfold allDigits in H. rewrite Forall_forall in H.
  specialize (H hyphen (groupKey_has_hyphen p)). discriminate.
Qed.

Lemma eqb_str_hyphen : forall a b,
  In hyphen a -> ~ In hyphen b -> eqb_str a b = false.
Proof.
  intros a b Ha Hb. apply eqb_str_neq. intros ->. contradiction.
Qed.

Lemma groupKey_is_not_inherited : forall p, inherited (groupKey p) = Undefined.
Proof.
  intro p. pose proof (groupKey_has_hyphen p) as H. unfold inherited.
  rewrite (eqb_str_hyphen _ protoName H)
    by (vm_compute; intuition discriminate).
  unfold prototypeFunctions. cbn [existsb].
  repeat (rewrite (eqb_str_hyphen (groupKey p) _ H)
            by (vm_compute; intuition discriminate)).
  reflexivity.
Qed.

(** The group at the head of the object collects its members; every other
    product goes to the groups behind it. *)
Lemma fold_groupStep_head : forall l k g acc,
  fold_left groupStep l ((k, g) :: acc)
  = (k, fold_left combine (members k l) g)
      :: fold_left groupStep (others k l) acc.
Proof.
  induction l as [|p l IH]; intros k g acc; [reflexivity|].
  cbn [fold_left]. unfold groupStep at 2. cbn [groupInsert].
  unfold members, others. cbn [filter].
  rewrite (eqb_str_sym (groupKey p) k).
  destruct (eqb_str k (groupKey p)) eqn:E; cbn [negb fold_left].
  - apply IH.
  - rewrite IH. reflexivity.
Qed.

Lemma groupProducts_cons : forall p l,
  groupProducts (p :: l)
  = (groupKey p, fold_left combine (members (groupKey p) l) p)
      :: groupProducts (others (groupKey p) l).
Proof.
  intros p l. unfold groupProducts. cbn [fold_left].
  unfold groupStep at 2. cbn [groupInsert]. apply fold_groupStep_head.
Qed.

Lemma aggregate_cons : forall p l,
  aggregate (p :: l)
  = fold_left combine (members (groupKey p) l) p
      :: aggregate (others (groupKey p) l).
Proof.
  intros p l. unfold aggregate. now rewrite groupProducts_cons.
Qed.

(** Induction on a list where the step may recurse on any shorter list. *)
Lemma list_length_ind : forall (A : Type) (P : list A -> Prop),
  (forall l, (forall l', (List.length l' < List.length l)%nat -> P l') -> P l) ->
  forall l, P l.
Proof.
  intros A P H l.
  assert (G : forall n l, (List.length l < n)%nat -> P l).
  { induction n as [|n IH]; intros l0 Hl; [lia|].
    apply H. intros l' Hl'. apply IH. lia. }
  apply (G (S (List.length l))). lia.
Qed.

Lemma others_shorter : forall k p l,
  (List.length (others k l) < List.length (p :: l))%nat.
Proof.
  intros k p l. unfold others. pose proof (filter_length_le _ (fun p0 : product => negb (eqb_str (groupKey p0) k)) l).
  simpl. lia.
Qed.

Lemma groupProducts_keys : forall l,
  map fst (groupProducts l) = firstSeen (map groupKey l).
Proof.
  induction l as [l IH] using list_length_ind.
  destruct l as [|p l]; [reflexivity|].
  rewrite groupProducts_cons. cbn [map firstSeen fst]. f_equal.
  rewrite IH by apply others_shorter.
  rewrite map_groupKey_others. apply firstSeen_filter.
Qed.

Lemma members_others : forall k k' l,
  k <> k' -> members k (others k' l) = members k l.
Proof.
  intros k k' l Hk. unfold members, others.
  induction l as [|p l IH]; [reflexivity|]. simpl.
  destruct (eqb_str (groupKey p) k') eqn:E'; simpl.
  - apply eqb_str_eq in E'.
    replace (eqb_str (groupKey p) k) with false; [assumption|].
    symmetry. apply eqb_str_neq. congruence.
  - now rewrite IH.
Qed.

Lemma groupProducts_members : forall l k g,
  In (k, g) (groupProducts l) ->
  exists first rest,
    members k l = first :: rest /\ g = fold_left combine rest first.
Proof.
  induction l as [l IH] using list_length_ind. intros k g Hin.
  destruct l as [|p l]; [contradiction|].
  rewrite groupProducts_cons in Hin. destruct Hin as [Heq|Hin].
  - injection Heq as <- <-. exists p, (members (groupKey p) l).
    split; [|reflexivity]. unfold members at 1. cbn [filter].
    now rewrite eqb_str_refl.
  - assert (Hk : k <> groupKey p).
    { intros ->. apply (in_map fst) in Hin. cbn [fst] in Hin.
      rewrite groupProducts_keys, map_groupKey_others in Hin.
      apply firstSeen_In, filter_In in Hin. destruct Hin as [_ Hin].
      now rewrite eqb_str_refl in Hin. }
    destruct (IH _ (others_shorter (groupKey p) p l) k g Hin)
      as [first [rest [Hm Hg]]].
    exists first, rest. split; [|assumption].
    rewrite members_others in Hm by assumption.
    unfold members in *. cbn [filter].
    replace (eqb_str (groupKey p) k) with false; [assumption|].
    symmetry. apply eqb_str_neq. congruence.
Qed.

(** What the fold leaves in a group: the first member's identity, and the
    sum of the members' magnitudes as long as that sum is below 2^53. *)
Lemma fold_combine_fields : forall rest first,
  let g := fold_left combine rest first in
  id g = id first /\ name g = name first /\ date g = date first
  /\ uniqueKey g = uniqueKey first
  /\ (totalMagnitude (first :: rest) < safeLimit ->
      parseQuantity (quantity g) = totalMagnitude (first :: rest)).
Proof.
  unfold totalMagnitude.
  induction rest as [|p rest IH]; intro first; cbn zeta.
  - simpl. repeat split. lia.
  - cbn [fold_left]. destruct (IH (combine first p)) as [H1 [H2 [H3 [H4 H5]]]].
    cbn zeta in *. rewrite H1, H2, H3, H4. repeat split.
    cbn [map sumList fold_right] in *. intro Htot.
    assert (Hc : parseQuantity (quantity (combine first p))
                 = parseQuantity (quantity first) + parseQuantity (quantity p))
      by (apply parseQuantity_combine; lia).
    rewrite Hc in H5. rewrite H5; lia.
Qed.


(* ================================================================== *)
(** * Grouping: the claims *)
(* ================================================================== *)

Lemma split_at_hyphen : forall a a' b b' : jsstring,
  ~ In hyphen a -> ~ In hyphen a' ->
  a ++ hyphen :: b = a' ++ hyphen :: b' -> a = a' /\ b = b'.
Proof.
  induction a as [|x a IH]; intros a' b b' Ha Ha' H.
  - destruct a' as [|y a']; simpl in H.
    + injection H as ->. now split.
    + injection H as <- _. exfalso. apply Ha'. now left.
  - destruct a' as [|y a']; simpl in H.
    + injection H as -> _. exfalso. apply Ha. now left.
    + injection H as -> H. destruct (IH a' b b') as [-> ->]; try assumption.
      * intro Hin. apply Ha. now right.
      * intro Hin. apply Ha'. now right.
      * now split.
Qed.

Lemma groupKey_injective_without_hyphen : forall p q,
  ~ In hyphen (name p) -> ~ In hyphen (name q) ->
  groupKey p = groupKey q -> name p = name q /\ quantity p = quantity q.
Proof.
  intros p q Hp Hq H. unfold groupKey in H. now apply split_at_hyphen.
Qed.

Lemma groupProducts_files_every_product : forall l p,
  In p l -> exists g, In (groupKey p, g) (groupProducts l).
Proof.
  intros l p Hin.
  assert (Hk : In (groupKey p) (map fst (groupProducts l))).
  { rewrite groupProducts_keys. apply firstSeen_In. now apply in_map. }
  apply in_map_iff in Hk. destruct Hk as [[k g] [Hk Hg]]. simpl in Hk. subst k.
  now exists g.
Qed.

Lemma aggregate_uniqueKeys : forall l,
  (forall p, In p l -> uniqueKey p = groupKey p) ->
  map uniqueKey (aggregate l) = map fst (groupProducts l).
Proof.
  intros l Hl. unfold aggregate. rewrite map_map. apply map_ext_in.
  intros [k g] Hin. cbn [fst snd].
  destruct (groupProducts_members l k g Hin) as [first [rest [Hm ->]]].
  destruct (fold_combine_fields rest first) as [_ [_ [_ [-> _]]]].
  assert (Hf : In first (members k l)) by (rewrite Hm; now left).
  apply filter_In in Hf. destruct Hf as [Hf Hk]. apply eqb_str_eq in Hk.
  rewrite Hl by assumption. assumption.
Qed.

(** C1.  Two products are to be merged exactly when they have the same
    name and the same quantity text.  The code files a product under its
    name, a hyphen and its quantity text, and at the product "Elma-2" with
    "3 kg" and the product "Elma" with "2-3 kg" both keys are
    "Elma-2-3 kg": two products that differ in name and in quantity text
    are merged into one record, named "Elma-2" and of magnitude
    3 + (2 + 3). *)
Lemma hyphen_key_collision :
  map nameAndQuantity (processedProducts collidingRows)
    = [ (js "Elma-2", js "3 kg"); (js "Elma", js "2-3 kg") ]
  /\ js "Elma-2" <> js "Elma"
  /\ js "3 kg" <> js "2-3 kg"
  /\ map groupKey (processedProducts collidingRows)
    = [ js "Elma-2-3 kg"; js "Elma-2-3 kg" ]
  /\ map nameAndQuantity (aggregate (processedProducts collidingRows))
    = [ (js "Elma-2", js "8 kg") ].
Proof.
  split; [vm_compute; reflexivity|]. split; [discriminate|].
  split; [discriminate|]. split; vm_compute; reflexivity.
Qed.

(** Apart from that collision the key decides the merging.  Two products
    with the same name and the same quantity text have the same key; two
    products whose names contain no hyphen have the same key only if they
    have the same name and the same quantity text.  Every product is
    filed under its key, a group merges exactly the products of its key,
    in their order, and the keys of the groups are pairwise distinct; so
    are the [uniqueKey] fields of the aggregated records of a normalised
    input. *)
Theorem group_key_decides_merging :
  (forall p q, name p = name q -> quantity p = quantity q ->
      groupKey p = groupKey q)
  /\ (forall p q, ~ In hyphen (name p) -> ~ In hyphen (name q) ->
      groupKey p = groupKey q -> name p = name q /\ quantity p = quantity q)
  /\ (forall l p, In p l -> exists g, In (groupKey p, g) (groupProducts l))
  /\ (forall l k g, In (k, g) (groupProducts l) ->
      exists first rest,
        members k l = first :: rest /\ g = fold_left combine rest first)
  /\ (forall l, NoDup (map fst (groupProducts l)))
  /\ (forall data, NoDup (map uniqueKey (aggregate (processedProducts data)))).
Proof.
  split; [|split; [|split; [|split; [|split]]]].
  - intros p q Hn Hq. unfold groupKey. now rewrite Hn, Hq.
  - exact groupKey_injective_without_hyphen.
  - exact groupProducts_files_every_product.
  - exact groupProducts_members.
  - intro l. rewrite groupProducts_keys. apply firstSeen_NoDup.
  - intro data. rewrite aggregate_uniqueKeys.
    + rewrite groupProducts_keys. apply firstSeen_NoDup.
    + intros p Hp. unfold processedProducts in Hp. apply filter_In in Hp.
      destruct Hp as [Hp _]. revert Hp. generalize 0.
      induction data as [|r data IH]; intros n Hp; [contradiction|].
      destruct Hp as [<-|Hp]; [reflexivity|]. now apply (IH (n + 1)).
Qed.

(** At a concrete input: the two "Elma" rows of [repeatedRows]. *)
Lemma group_key_decides_merging_witness :
  ~ In hyphen (js "Elma")
  /\ groupKey (mkProduct 1 (js "Elma") (js "2 kg") (js "2 kg") defaultDate (js "Elma-2 kg"))
     = groupKey (mkProduct 2 (js "Elma") (js "2 kg") (js "2 kg") defaultDate (js "Elma-2 kg"))
  /\ (js "Elma" = js "Elma" /\ js "2 kg" = js "2 kg").
Proof.
  assert (H : ~ In hyphen (js "Elma")) by (vm_compute; intuition discriminate).
  split; [exact H|]. split; [reflexivity|].
  exact (proj1 (proj2 group_key_decides_merging)
           (mkProduct 1 (js "Elma") (js "2 kg") (js "2 kg") defaultDate (js "Elma-2 kg"))
           (mkProduct 2 (js "Elma") (js "2 kg") (js "2 kg") defaultDate (js "Elma-2 kg"))
           H H eq_refl).
Defined.

Lemma sumList_app : forall a b, sumList (a ++ b) = sumList a + sumList b.
Proof.
  induction a as [|x a IH]; intro b; simpl; [reflexivity|].
  rewrite IH. lia.
Qed.



(** Past the bound the text is no longer the digits of the sum: two rows
    of 5 * 10^20 kg merge into "1e+21 kg", whose digit runs are "1" and
    "21", so the merged record counts as 22. *)
Example merged_text_turns_exponential :
  map nameAndQuantity (aggregate (processedProducts hugeRows))
    = [ (js "Un", js "1e+21 kg") ]
  /\ magnitudes (aggregate (processedProducts hugeRows)) = [22].
Proof. split; vm_compute; reflexivity. Qed.




(* ================================================================== *)
(** * Aggregating twice *)
(* ================================================================== *)

Lemma totalMagnitude_cons : forall p l,
  totalMagnitude (p :: l) = parseQuantity (quantity p) + totalMagnitude l.
Proof. reflexivity. Qed.

Lemma totalMagnitude_split : forall k l,
  totalMagnitude l = totalMagnitude (members k l) + totalMagnitude (others k l).
Proof.
  intros k. unfold members, others.
  induction l as [|p l IH]; [reflexivity|].
  cbn [filter]. destruct (eqb_str (groupKey p) k); cbn [negb];
    rewrite !totalMagnitude_cons, IH; lia.
Qed.

Lemma aggregate_total : forall l,
  totalMagnitude l < safeLimit ->
  totalMagnitude (aggregate l) = totalMagnitude l.
Proof.
  induction l as [l IH] using list_length_ind. intro Htot.
  destruct l as [|p l]; [reflexivity|].
  rewrite aggregate_cons, !totalMagnitude_cons.
  rewrite totalMagnitude_cons, (totalMagnitude_split (groupKey p) l) in Htot.
  rewrite IH by (try apply others_shorter; lia).
  destruct (fold_combine_fields (members (groupKey p) l) p) as [_ [_ [_ [_ H]]]].
  cbn zeta in H. rewrite totalMagnitude_cons in H. rewrite H by lia.
  rewrite (totalMagnitude_split (groupKey p) l). lia.
Qed.





(* ================================================================== *)
(** * The row normaliser *)
(* ================================================================== *)

Lemma mapFrom_In : forall (A B : Type) (f : N -> A -> B) l n y,
  In y (mapFrom f n l)
  <-> exists i x, nth_error l i = Some x /\ y = f (n + N.of_nat i) x.
Proof.
  intros A B f. induction l as [|x0 l IH]; intros n y; cbn [mapFrom].
  - split; [contradiction|]. intros [i [x [H _]]]. destruct i; discriminate.
  - split.
    + intros [<-|H].
      * exists 0%nat, x0. split; [reflexivity|]. f_equal. lia.
      * apply IH in H. destruct H as [i [x [Hi ->]]].
        exists (S i), x. split; [assumption|]. f_equal. lia.
    + intros [i [x [Hi ->]]]. destruct i as [|i].
      * injection Hi as ->. left. f_equal. lia.
      * right. apply IH. exists i, x. split; [assumption|]. f_equal. lia.
Qed.

Lemma truthy_nonempty : forall s, truthy s = true <-> s <> [].
Proof. intros [|c s]; simpl; split; congruence. Qed.

Lemma processed_ids_increase : forall data n,
  StronglySorted N.lt (map id (filter keepProduct (mapFrom toProduct n data)))
  /\ Forall (fun i => n < i) (map id (filter keepProduct (mapFrom toProduct n data))).
Proof.
  induction data as [|r data IH]; intro n; cbn [mapFrom filter map].
  - split; constructor.
  - destruct (IH (n + 1)) as [Hs Hf].
    assert (Hf' : Forall (fun i => n < i)
             (map id (filter keepProduct (mapFrom toProduct (n + 1) data)))).
    { eapply Forall_impl; [|exact Hf]. cbn beta. intros. lia. }
    destruct (keepProduct (toProduct n r)); [|now split].
    cbn [map]. split.
    + constructor; [assumption|]. cbn [toProduct id]. exact Hf.
    + constructor; [cbn [toProduct id]; lia|assumption].
Qed.

Lemma mapFrom_ids : forall data m,
  map id (mapFrom toProduct (N.of_nat m) data)
  = map (fun i => N.of_nat i + 1) (seq m (List.length data)).
Proof.
  induction data as [|r data IH]; intro m; [reflexivity|].
  cbn [mapFrom map List.length seq toProduct id]. f_equal.
  replace (N.of_nat m + 1) with (N.of_nat (S m)) by lia. apply IH.
Qed.

(** The numbers are those of the rows, so a dropped row leaves a gap: the
    only record of [rowsWithGap], whose first row has no name, carries the
    id 2. *)
Example surviving_ids_have_gaps :
  map (fun p => (id p, name p, quantity p)) (processedProducts rowsWithGap)
    = [ (2, js "Elma", js "2 kg") ]
  /\ map id (processedProducts rowsWithGap)
     <> firstIds (List.length (processedProducts rowsWithGap)).
Proof. split; [reflexivity|discriminate]. Qed.

(** C5.  The rows are numbered 1, 2, ... in input order, and the record
    built from a row carries the number of its row as id, together with
    the trimmed name and the trimmed quantity.  The normaliser keeps
    exactly the records whose name and quantity are both non-empty after
    trimming and drops the others, and it keeps them in input order: the
    ids of the output increase strictly. *)
Theorem processedProducts_keeps_rows_in_order :
  forall data,
    (forall p, In p (processedProducts data)
       <-> exists i r,
             nth_error data i = Some r
             /\ p = toProduct (N.of_nat i) r
             /\ trim (resolve r col_urun col_Urun) <> []
             /\ trim (resolve r col_miktar col_Miktar) <> [])
    /\ (forall i r,
          id (toProduct (N.of_nat i) r) = N.of_nat i + 1
          /\ name (toProduct (N.of_nat i) r) = trim (resolve r col_urun col_Urun)
          /\ quantity (toProduct (N.of_nat i) r)
             = trim (resolve r col_miktar col_Miktar))
    /\ map id (mapFrom toProduct 0 data) = firstIds (List.length data)
    /\ StronglySorted N.lt (map id (processedProducts data)).
Proof.
  intro data. split; [|split; [|split]].
  - intro p. unfold processedProducts. rewrite filter_In, mapFrom_In.
    unfold keepProduct. rewrite andb_true_iff, !truthy_nonempty. split.
    + intros [[i [r [Hi ->]]] [Hn Hq]]. exists i, r. now repeat split.
    + intros [i [r [Hi [-> [Hn Hq]]]]]. split; [|now split].
      now exists i, r.
  - intros i r. now repeat split.
  - exact (mapFrom_ids data 0).
  - apply processed_ids_increase.
Qed.

(* ================================================================== *)
(** * Duplicate annotation *)
(* ================================================================== *)

Lemma getOwn_setOwn : forall o k v n,
  getOwn (setOwn o k v) n = if eqb_str k n then Some v else getOwn o n.
Proof.
  induction o as [|[k' v'] o IH]; intros k v n; cbn [setOwn getOwn].
  - reflexivity.
  - destruct (eqb_str k' k) eqn:E; cbn [getOwn].
    + apply eqb_str_eq in E. subst k'. now destruct (eqb_str k n).
    + rewrite IH. destruct (eqb_str k' n) eqn:E'; [|reflexivity].
      apply eqb_str_eq in E'. subst k'.
      apply eqb_str_neq in E.
      replace (eqb_str k n) with false; [reflexivity|].
      symmetry. apply eqb_str_neq. congruence.
Qed.

Lemma getProp_countStep : forall o p n,
  eqb_str n protoName = false ->
  getProp (countStep o p) n
  = if eqb_str (name p) n then plusOne (getProp o n) else getProp o n.
Proof.
  intros o p n Hn. unfold countStep, setProp.
  destruct (eqb_str (name p) protoName) eqn:Ep.
  - apply eqb_str_eq in Ep.
    replace (eqb_str (name p) n) with false; [reflexivity|].
    symmetry. apply eqb_str_neq. apply eqb_str_neq in Hn. congruence.
  - unfold getProp at 1. rewrite getOwn_setOwn.
    destruct (eqb_str (name p) n) eqn:E; [|reflexivity].
    apply eqb_str_eq in E. now subst n.
Qed.

Lemma getProp_proto : forall l o,
  getOwn o protoName = None ->
  getOwn (fold_left countStep l o) protoName = None.
Proof.
  induction l as [|p l IH]; intros o Ho; [assumption|].
  cbn [fold_left]. apply IH. unfold countStep, setProp.
  destruct (eqb_str (name p) protoName) eqn:E; [assumption|].
  rewrite getOwn_setOwn, E. assumption.
Qed.

Lemma iter_plusOne_shift : forall c v,
  Nat.iter c plusOne (plusOne v) = plusOne (Nat.iter c plusOne v).
Proof.
  induction c as [|c IH]; intro v; [reflexivity|].
  rewrite !Nat.iter_succ. now rewrite IH.
Qed.

Lemma getProp_fold_countStep : forall l o n,
  eqb_str n protoName = false ->
  getProp (fold_left countStep l o) n
  = Nat.iter (occurrences n l) plusOne (getProp o n).
Proof.
  induction l as [|p l IH]; intros o n Hn; [reflexivity|].
  cbn [fold_left]. rewrite IH by assumption.
  rewrite getProp_countStep by assumption.
  unfold occurrences. cbn [filter].
  destruct (eqb_str (name p) n); [|reflexivity].
  cbn [List.length]. rewrite Nat.iter_succ.
  apply iter_plusOne_shift.
Qed.

(** The value the annotation reads for a name. *)
Lemma getProp_countNames : forall l n,
  getProp (countNames l) n = countedValue n (occurrences n l).
Proof.
  intros l n. unfold countedValue, countNames.
  destruct (eqb_str n protoName) eqn:E.
  - apply eqb_str_eq in E. subst n. unfold getProp.
    now rewrite getProp_proto.
  - now rewrite getProp_fold_countStep.
Qed.

Lemma iter_plusOne_Undefined : forall c,
  (0 < c)%nat -> Nat.iter c plusOne Undefined = Num (N.of_nat c).
Proof.
  induction c as [|c IH]; intro Hc; [lia|].
  rewrite Nat.iter_succ. destruct c as [|c]; [reflexivity|].
  rewrite IH by lia. cbn [plusOne]. f_equal. lia.
Qed.

Lemma occurrences_positive : forall l p,
  In p l -> (0 < occurrences (name p) l)%nat.
Proof.
  intros l p Hin. unfold occurrences.
  assert (H : In p (filter (fun q => eqb_str (name q) (name p)) l)).
  { apply filter_In. split; [assumption|apply eqb_str_refl]. }
  destruct (filter (fun q => eqb_str (name q) (name p)) l);
    [contradiction|simpl; lia].
Qed.

(** For a name that [Object.prototype] does not know, the annotation is
    the count of the records of that name. *)
Lemma annotate_counts_ordinary_names : forall l p,
  In p l ->
  inherited (name p) = Undefined ->
  duplicateCount (annotateWith (countNames l) p)
    = Num (N.of_nat (occurrences (name p) l))
  /\ isDuplicate (annotateWith (countNames l) p)
    = (1 <? N.of_nat (occurrences (name p) l)).
Proof.
  intros l p Hin Hname. unfold annotateWith. cbn [duplicateCount isDuplicate].
  rewrite getProp_countNames. unfold countedValue.
  destruct (eqb_str (name p) protoName) eqn:E.
  - unfold inherited in Hname. rewrite E in Hname. discriminate.
  - rewrite Hname, iter_plusOne_Undefined by now apply occurrences_positive.
    split; reflexivity.
Qed.

(** The example of the specification: "Domates" with "5 kg" and with
    "3 kasa" gives two groups, both counted twice and both flagged. *)
Example domates_is_flagged :
  map (fun s => (name (item s), quantity (item s), duplicateCount s, isDuplicate s))
    (annotate (aggregate (processedProducts
       [ row (js "Domates") (js "5 kg"); row (js "Domates") (js "3 kasa") ])))
  = [ (js "Domates", js "5 kg", Num 2, true);
      (js "Domates", js "3 kasa", Num 2, true) ].
Proof. reflexivity. Qed.

(** C6 on a name that [Object.prototype] knows.  [nameCounts] starts as
    [{}], so the first read of [nameCounts["constructor"]] finds the
    inherited function instead of [undefined], and [(f || 0) + 1] glues
    "1" to the text of the function.  The two groups end with a text as
    [duplicateCount] and with [isDuplicate] false, where the count of the
    groups of that name is 2. *)
Lemma inherited_name_is_not_counted :
  map (fun s => (name (item s), quantity (item s), duplicateCount s, isDuplicate s))
    (annotate (aggregate (processedProducts constructorRows)))
  = [ (js "constructor", js "5 kg", NativeText (js "constructor") 2, false);
      (js "constructor", js "3 kasa", NativeText (js "constructor") 2, false) ]
  /\ occurrences (js "constructor") (aggregate (processedProducts constructorRows))
     = 2%nat.
Proof. split; reflexivity. Qed.

(* ================================================================== *)
(** * The text filter before or after the aggregation *)
(* ================================================================== *)

Lemma keysDetermineNames_without_hyphen : forall l,
  Forall (fun p => ~ In hyphen (name p)) l -> keysDetermineNames l.
Proof.
  intros l Hl p q Hp Hq Hk. rewrite Forall_forall in Hl.
  now apply (groupKey_injective_without_hyphen p q (Hl p Hp) (Hl q Hq)).
Qed.

Lemma keysDetermineNames_cons : forall p l,
  keysDetermineNames (p :: l) -> keysDetermineNames l.
Proof. intros p l H a b Ha Hb. apply H; now right. Qed.

Lemma keysDetermineNames_filter : forall f l,
  keysDetermineNames l -> keysDetermineNames (filter f l).
Proof.
  intros f l H a b Ha Hb. apply filter_In in Ha, Hb. now apply H.
Qed.

Lemma aggregate_filter_by_name : forall F,
  byNameOnly F ->
  forall l, keysDetermineNames l ->
  aggregate (filter F l) = filter F (aggregate l).
Proof.
  intros F HF. induction l as [l IH] using list_length_ind. intro Hl.
  destruct l as [|p l]; [reflexivity|].
  set (k := groupKey p).
  assert (Hmem : forall q, In q (members k l) -> F q = F p).
  { intros q Hq. apply filter_In in Hq. destruct Hq as [Hq Hk].
    apply eqb_str_eq in Hk. apply HF. apply Hl; [now right|now left|assumption]. }
  assert (Hg : F (fold_left combine (members k l) p) = F p).
  { apply HF. now destruct (fold_combine_fields (members k l) p) as [_ [H _]]. }
  assert (Hrec : aggregate (filter F (others k l)) = filter F (aggregate (others k l))).
  { apply IH; [apply others_shorter|].
    apply keysDetermineNames_filter. now apply keysDetermineNames_cons in Hl. }
  rewrite aggregate_cons. fold k. cbn [filter]. rewrite Hg.
  destruct (F p) eqn:Ep.
  - rewrite aggregate_cons. fold k. f_equal.
    + f_equal. unfold members. rewrite filter_filter_comm.
      apply filter_all. exact Hmem.
    + rewrite <- Hrec. f_equal. unfold others. apply filter_filter_comm.
  - rewrite <- Hrec. f_equal. unfold others.
    rewrite filter_filter_comm. symmetry. apply filter_all.
    intros q Hq. apply filter_In in Hq. destruct Hq as [Hq HFq].
    apply negb_true_iff. destruct (eqb_str (groupKey q) k) eqn:Ek; [|reflexivity].
    rewrite Hmem in HFq; [congruence|]. apply filter_In. now split.
Qed.

Lemma occurrences_filter : forall F l p,
  byNameOnly F -> F p = true ->
  occurrences (name p) (filter F l) = occurrences (name p) l.
Proof.
  intros F l p HF Hp. unfold occurrences. f_equal.
  rewrite filter_filter_comm. apply filter_all.
  intros q Hq. apply filter_In in Hq. destruct Hq as [_ Hq].
  apply eqb_str_eq in Hq. now rewrite (HF q p Hq).
Qed.

Lemma filter_map_item : forall (F : product -> bool) (g : product -> shownProduct) l,
  (forall p, item (g p) = p) ->
  filter (fun s => F (item s)) (map g l) = map g (filter F l).
Proof.
  intros F g l Hg. induction l as [|p l IH]; [reflexivity|].
  cbn [map filter]. rewrite Hg. destruct (F p); cbn [map]; now rewrite IH.
Qed.

Lemma annotate_filter_by_name : forall F,
  byNameOnly F ->
  forall l, annotate (filter F l) = filter (fun s => F (item s)) (annotate l).
Proof.
  intros F HF l. unfold annotate.
  rewrite filter_map_item by reflexivity.
  apply map_ext_in. intros p Hp. apply filter_In in Hp. destruct Hp as [_ Hp].
  unfold annotateWith. rewrite !getProp_countNames.
  now rewrite occurrences_filter.
Qed.

Lemma matchesSearch_byNameOnly : forall toLowerCase searchTerm,
  byNameOnly (matchesSearch toLowerCase searchTerm).
Proof. intros toLowerCase searchTerm p q H. unfold matchesSearch. now rewrite H. Qed.

(** C7 at an input with hyphens.  The two products of [collidingRows]
    share a key but not a name.  Filtering on "elma-2" before the aggregation
    keeps the first product alone, with its "3 kg"; filtering after the
    annotation keeps the merged record, with "8 kg". *)
Lemma filter_after_merging_differs :
  map (fun s => (name (item s), quantity (item s)))
    (annotate (aggregate
       (textFilter asciiLower (js "elma-2") (processedProducts collidingRows))))
    = [ (js "Elma-2", js "3 kg") ]
  /\ map (fun s => (name (item s), quantity (item s)))
    (shownFilter asciiLower (js "elma-2")
       (annotate (aggregate (processedProducts collidingRows))))
    = [ (js "Elma-2", js "8 kg") ]
  /\ annotate (aggregate
       (textFilter asciiLower (js "elma-2") (processedProducts collidingRows)))
     <> shownFilter asciiLower (js "elma-2")
          (annotate (aggregate (processedProducts collidingRows))).
Proof.
  split; [reflexivity|]. split; [reflexivity|]. vm_compute. discriminate.
Qed.

(** Where products with the same group key have the same name, as is the
    case when no name contains a hyphen, filtering by the search text
    before the aggregation gives the same aggregated and annotated records
    as filtering after the annotation. *)
Theorem text_filter_commutes_with_aggregation :
  forall (toLowerCase : jsstring -> jsstring) (l : list product)
         (searchTerm : jsstring),
    keysDetermineNames l ->
    annotate (aggregate (textFilter toLowerCase searchTerm l))
    = shownFilter toLowerCase searchTerm (annotate (aggregate l)).
Proof.
  intros toLowerCase l searchTerm Hl. unfold textFilter, shownFilter.
  destruct (truthy searchTerm); [|reflexivity].
  pose proof (matchesSearch_byNameOnly toLowerCase searchTerm) as HF.
  rewrite aggregate_filter_by_name by assumption.
  now apply annotate_filter_by_name.
Qed.

(** At a concrete input: the repeated rows, searched for "elma". *)
Lemma text_filter_commutes_at_repeated_rows :
  keysDetermineNames (processedProducts repeatedRows)
  /\ annotate (aggregate
       (textFilter asciiLower (js "elma") (processedProducts repeatedRows)))
     = shownFilter asciiLower (js "elma")
         (annotate (aggregate (processedProducts repeatedRows))).
Proof.
  assert (H : keysDetermineNames (processedProducts repeatedRows)).
  { apply keysDetermineNames_without_hyphen.
    repeat constructor; vm_compute; intuition discriminate. }
  split; [exact H|].
  exact (text_filter_commutes_with_aggregation asciiLower
           (processedProducts repeatedRows) (js "elma") H).
Defined.

(* ================================================================== *)
(** * Sorting by name, ascending and descending *)
(* ================================================================== *)

Section Sorting.

Variable A : Type.
Variable cmp : A -> A -> Z.

Lemma insertSorted_perm : forall x l, Permutation (insertSorted cmp x l) (x :: l).
Proof.
  intros x. induction l as [|y l IH]; [reflexivity|].
  cbn [insertSorted]. destruct (cmp x y <=? 0)%Z; [reflexivity|].
  rewrite IH. apply perm_swap.
Qed.

Lemma sortWith_perm : forall l, Permutation (sortWith cmp l) l.
Proof.
  induction l as [|x l IH]; [reflexivity|].
  cbn [sortWith]. rewrite insertSorted_perm. now constructor.
Qed.

Lemma insertSorted_sorted : forall x l,
  consistentComparator cmp ->
  StronglySorted (notAfter cmp) l -> StronglySorted (notAfter cmp) (insertSorted cmp x l).
Proof.
  intros x l [Hsym Htrans]. induction l as [|y l IH]; intro Hs.
  - repeat constructor.
  - cbn [insertSorted]. inversion Hs as [|? ? Hs' Hy]; subst.
    destruct (cmp x y <=? 0)%Z eqn:E.
    + apply Z.leb_le in E. constructor; [assumption|].
      constructor; [exact E|].
      eapply Forall_impl; [|exact Hy]. intros z Hz. now apply (Htrans x y z).
    + apply Z.leb_gt in E. constructor; [now apply IH|].
      apply Forall_forall. intros z Hz.
      apply (Permutation_in _ (insertSorted_perm x l)) in Hz.
      destruct Hz as [<-|Hz].
      * unfold notAfter. specialize (Hsym x y). lia.
      * rewrite Forall_forall in Hy. now apply Hy.
Qed.

Lemma sortWith_sorted : forall l,
  consistentComparator cmp -> StronglySorted (notAfter cmp) (sortWith cmp l).
Proof.
  intros l H. induction l as [|x l IH]; [constructor|].
  cbn [sortWith]. now apply insertSorted_sorted.
Qed.

End Sorting.

Lemma StronglySorted_app : forall (A : Type) (R : A -> A -> Prop) l1 l2,
  StronglySorted R l1 -> StronglySorted R l2 ->
  (forall a b, In a l1 -> In b l2 -> R a b) ->
  StronglySorted R (l1 ++ l2).
Proof.
  intros A R. induction l1 as [|x l1 IH]; intros l2 H1 H2 H; [assumption|].
  inversion H1 as [|? ? H1' Hx]; subst. cbn [app]. constructor.
  - apply IH; try assumption. intros a b Ha Hb. apply H; [now right|assumption].
  - apply Forall_app. split; [assumption|].
    apply Forall_forall. intros b Hb. apply H; [now left|assumption].
Qed.

Lemma StronglySorted_rev : forall (A : Type) (R : A -> A -> Prop) l,
  StronglySorted R l -> StronglySorted (fun a b => R b a) (rev l).
Proof.
  intros A R. induction l as [|x l IH]; intro H; [constructor|].
  inversion H as [|? ? H' Hx]; subst. cbn [rev].
  apply StronglySorted_app; [now apply IH|repeat constructor|].
  intros a b Ha [<-|[]]. apply in_rev in Ha.
  rewrite Forall_forall in Hx. now apply Hx.
Qed.

(** Two sorted arrangements of the same elements are equal when the order
    cannot tie two different elements. *)
Lemma sorted_arrangement_unique : forall (A : Type) (R : A -> A -> Prop) l1 l2,
  StronglySorted R l1 -> StronglySorted R l2 -> Permutation l1 l2 ->
  (forall a b, In a l1 -> In b l1 -> R a b -> R b a -> a = b) ->
  l1 = l2.
Proof.
  intros A R. induction l1 as [|a l1 IH]; intros l2 H1 H2 Hp Hanti.
  - apply Permutation_nil in Hp. now subst.
  - destruct l2 as [|b l2]; [apply Permutation_sym, Permutation_nil in Hp; discriminate|].
    inversion H1 as [|? ? H1' Ha]; subst. inversion H2 as [|? ? H2' Hb]; subst.
    rewrite Forall_forall in Ha, Hb.
    assert (Hab : a = b).
    { assert (Ha2 : In a (b :: l2))
        by (apply (Permutation_in _ Hp); now left).
      assert (Hb1 : In b (a :: l1))
        by (apply (Permutation_in _ (Permutation_sym Hp)); now left).
      destruct Ha2 as [->|Ha2]; [reflexivity|].
      destruct Hb1 as [->|Hb1]; [reflexivity|].
      apply Hanti; [now left|now right|now apply Ha|now apply Hb]. }
    subst b. f_equal. apply IH; try assumption.
    + now apply Permutation_cons_inv in Hp.
    + intros x y Hx Hy. apply Hanti; now right.
Qed.

Lemma negated_comparator_consistent : forall (A : Type) (cmp : A -> A -> Z),
  consistentComparator cmp -> consistentComparator (fun a b => (- cmp a b)%Z).
Proof.
  intros A cmp [Hsym Htrans]. split.
  - intros x y. rewrite !Z.sgn_opp, Hsym. reflexivity.
  - intros x y z Hxy Hyz. pose proof (Hsym x y). pose proof (Hsym y z).
    pose proof (Hsym x z).
    assert (H2 : (cmp z x <= 0)%Z) by (apply (Htrans z y x); lia).
    lia.
Qed.

(** Reversing the ascending order gives the descending order when the
    comparator never ties two different elements of the list. *)
Lemma rev_sortWith : forall (A : Type) (cmp : A -> A -> Z) l,
  consistentComparator cmp ->
  (forall a b, In a l -> In b l -> cmp a b = 0%Z -> a = b) ->
  rev (sortWith cmp l) = sortWith (fun a b => (- cmp a b)%Z) l.
Proof.
  intros A cmp l Hc Hties.
  pose proof Hc as [Hsym _].
  apply (sorted_arrangement_unique A (notAfter (fun a b => (- cmp a b)%Z))).
  - pose proof (StronglySorted_rev _ _ _ (sortWith_sorted A cmp l Hc)) as H.
    eapply StronglySorted_ind with (P := StronglySorted _); [constructor| |exact H].
    intros a l0 _ IH Ha. constructor; [assumption|].
    eapply Forall_impl; [|exact Ha]. cbn beta. unfold notAfter.
    intros b Hb. specialize (Hsym a b). lia.
  - apply sortWith_sorted. now apply negated_comparator_consistent.
  - rewrite <- Permutation_rev, sortWith_perm. symmetry. apply sortWith_perm.
  - intros a b Ha Hb Hab Hba. apply in_rev in Ha, Hb.
    apply (Permutation_in _ (sortWith_perm A cmp l)) in Ha, Hb.
    apply Hties; try assumption. unfold notAfter in *.
    specialize (Hsym a b). lia.
Qed.

Lemma comparison_byName_consistent :
  forall (toLowerCase : jsstring -> jsstring) (localeCompare : jsstring -> jsstring -> Z),
    consistentComparator localeCompare ->
    consistentComparator (comparison toLowerCase localeCompare byName).
Proof.
  intros toLowerCase localeCompare [Hsym Htrans]. split.
  - intros x y. apply Hsym.
  - intros x y z. apply Htrans.
Qed.

Lemma codeUnitCompare_swap : forall a b,
  codeUnitCompare b a = (- codeUnitCompare a b)%Z.
Proof.
  induction a as [|x a IH]; destruct b as [|y b]; try reflexivity.
  cbn [codeUnitCompare]. rewrite (N.eqb_sym y x).
  destruct (N.eqb_spec x y) as [->|Hne]; [apply IH|].
  destruct (N.ltb_spec y x), (N.ltb_spec x y); try reflexivity; lia.
Qed.

Lemma codeUnitCompare_range : forall a b,
  codeUnitCompare a b = (-1)%Z \/ codeUnitCompare a b = 0%Z
  \/ codeUnitCompare a b = 1%Z.
Proof.
  induction a as [|x a IH]; destruct b as [|y b]; cbn [codeUnitCompare]; auto.
  destruct (x =? y); [apply IH|]. destruct (x <? y); auto.
Qed.

Lemma codeUnitCompare_trans : forall a b c,
  (codeUnitCompare a b <= 0)%Z -> (codeUnitCompare b c <= 0)%Z ->
  (codeUnitCompare a c <= 0)%Z.
Proof.
  induction a as [|x a IH]; intros [|y b] [|z c]; cbn [codeUnitCompare];
    try lia.
  destruct (N.eqb_spec x y) as [->|Hxy].
  - destruct (N.eqb_spec y z) as [->|Hyz]; [apply IH|]. tauto.
  - destruct (N.ltb_spec x y) as [Hlt|Hge]; [|lia].
    intros _. destruct (N.eqb_spec y z) as [->|Hyz].
    + intros _. destruct (N.eqb_spec x z); [lia|].
      destruct (N.ltb_spec x z); lia.
    + destruct (N.ltb_spec y z) as [Hlt'|Hge']; [|lia].
      intros _. destruct (N.eqb_spec x z); [lia|].
      destruct (N.ltb_spec x z); lia.
Qed.

Lemma codeUnitCompare_consistent : consistentComparator codeUnitCompare.
Proof.
  split.
  - intros x y. now rewrite codeUnitCompare_swap, Z.sgn_opp.
  - exact codeUnitCompare_trans.
Qed.

(** C9, as stated, fails: "Elma" and "elma" are two different names with
    the same lower-case form, and a text compares equal to itself under
    every collation.  The comparator returns 0 for the pair in both
    directions, the stable sort leaves the pair in input order both
    times, and reversing the ascending result swaps it. *)
Lemma case_variants_tie_in_both_directions :
  NoDup (map name (processedProducts caseRows))
  /\ map (fun s => name (item s))
       (rev (filteredProducts asciiLower codeUnitCompare
               (processedProducts caseRows) [] asc byName defaultDate))
     = [ js "elma"; js "Elma" ]
  /\ map (fun s => name (item s))
       (filteredProducts asciiLower codeUnitCompare
          (processedProducts caseRows) [] desc byName defaultDate)
     = [ js "Elma"; js "elma" ]
  /\ rev (filteredProducts asciiLower codeUnitCompare
            (processedProducts caseRows) [] asc byName defaultDate)
     <> filteredProducts asciiLower codeUnitCompare
          (processedProducts caseRows) [] desc byName defaultDate.
Proof.
  split; [|split; [reflexivity|split; [reflexivity|vm_compute; discriminate]]].
  vm_compute. repeat constructor; simpl; intuition discriminate.
Qed.

(** C9, amended.  For every consistent collation and every list of
    displayed records in which two different records never have
    lower-cased names that compare equal, sorting by name in ascending
    direction and reversing the result gives the same list as sorting by
    name in descending direction. *)
Theorem name_sort_descending_is_reversed_ascending :
  forall (toLowerCase : jsstring -> jsstring)
         (localeCompare : jsstring -> jsstring -> Z)
         (l : list shownProduct),
    consistentComparator localeCompare ->
    (forall a b, In a l -> In b l ->
       localeCompare (toLowerCase (name (item a))) (toLowerCase (name (item b))) = 0%Z ->
       a = b) ->
    rev (sortView toLowerCase localeCompare asc byName l)
    = sortView toLowerCase localeCompare desc byName l.
Proof.
  intros toLowerCase localeCompare l Hc Hties.
  unfold sortView, comparator.
  apply (rev_sortWith _ (comparison toLowerCase localeCompare byName)).
  - now apply comparison_byName_consistent.
  - exact Hties.
Qed.

(** At a concrete input: three products with three different names. *)
Lemma name_sort_witness :
  consistentComparator codeUnitCompare
  /\ (forall a b,
        In a (annotate (aggregate (processedProducts threeProductsRows))) ->
        In b (annotate (aggregate (processedProducts threeProductsRows))) ->
        codeUnitCompare (asciiLower (name (item a))) (asciiLower (name (item b))) = 0%Z ->
        a = b)
  /\ rev (sortView asciiLower codeUnitCompare asc byName
            (annotate (aggregate (processedProducts threeProductsRows))))
     = sortView asciiLower codeUnitCompare desc byName
         (annotate (aggregate (processedProducts threeProductsRows))).
Proof.
  assert (H : forall a b,
        In a (annotate (aggregate (processedProducts threeProductsRows))) ->
        In b (annotate (aggregate (processedProducts threeProductsRows))) ->
        codeUnitCompare (asciiLower (name (item a))) (asciiLower (name (item b))) = 0%Z ->
        a = b).
  { intros a b Ha Hb. vm_compute in Ha, Hb.
    destruct Ha as [<-|[<-|[<-|[]]]]; destruct Hb as [<-|[<-|[<-|[]]]];
      intro E; try reflexivity; vm_compute in E; discriminate. }
  split; [exact codeUnitCompare_consistent|]. split; [exact H|].
  exact (name_sort_descending_is_reversed_ascending asciiLower codeUnitCompare
           (annotate (aggregate (processedProducts threeProductsRows)))
           codeUnitCompare_consistent H).
Defined.

(* ================================================================== *)
(** * The whole view *)
(* ================================================================== *)

Lemma firstSeen_length : forall keys,
  (List.length (firstSeen keys) <= List.length keys)%nat.
Proof.
  induction keys as [|k rest IH]; [reflexivity|].
  cbn [firstSeen List.length].
  pose proof (filter_length_le _ (fun k' => negb (eqb_str k' k)) (firstSeen rest)).
  lia.
Qed.

Lemma aggregate_length : forall l,
  (List.length (aggregate l) <= List.length l)%nat.
Proof.
  intro l. unfold aggregate. rewrite length_map.
  rewrite <- (length_map fst), groupProducts_keys.
  pose proof (firstSeen_length (map groupKey l)) as H.
  now rewrite length_map in H.
Qed.

Lemma sortView_length : forall toLowerCase localeCompare sortBy sortColumn l,
  List.length (sortView toLowerCase localeCompare sortBy sortColumn l)
  = List.length l.
Proof.
  intros toLowerCase localeCompare sortBy sortColumn l.
  destruct sortBy; cbn [sortView]; try reflexivity;
    apply Permutation_length, sortWith_perm.
Qed.

(** The view never shows more records than it is given, and shows none
    when it is given none. *)
Lemma filteredProducts_shows_no_more :
  forall (toLowerCase : jsstring -> jsstring)
         (localeCompare : jsstring -> jsstring -> Z)
         (products : list product)
         (searchTerm : jsstring) (sortBy : SortBy) (sortColumn : SortColumn)
         (selectedDate : jsstring),
    (shownCount (filteredProducts toLowerCase localeCompare products searchTerm
                   sortBy sortColumn selectedDate)
     <= totalCount products)%nat.
Proof.
  intros toLowerCase localeCompare products searchTerm sortBy sortColumn
         selectedDate.
  unfold shownCount, totalCount, filteredProducts.
  rewrite sortView_length. unfold annotate. rewrite length_map.
  etransitivity; [apply aggregate_length|].
  unfold textFilter, dateFilter.
  pose proof (filter_length_le _ (fun p => eqb_str (date p) selectedDate) products).
  destruct (truthy searchTerm); [|assumption].
  etransitivity; [apply filter_length_le|assumption].
Qed.

Lemma filteredProducts_nil :
  forall (toLowerCase : jsstring -> jsstring)
         (localeCompare : jsstring -> jsstring -> Z)
         (searchTerm : jsstring) (sortBy : SortBy) (sortColumn : SortColumn)
         (selectedDate : jsstring),
    filteredProducts toLowerCase localeCompare [] searchTerm
      sortBy sortColumn selectedDate = [].
Proof.
  intros toLowerCase localeCompare searchTerm sortBy sortColumn selectedDate.
  unfold filteredProducts, dateFilter, textFilter.
  destruct (truthy searchTerm), sortBy; reflexivity.
Qed.

(* ================================================================== *)
(** * More on the two parsers *)
(* ================================================================== *)

Lemma DigitRuns_skip_prefix : forall pre s runs,
  noDigit pre -> DigitRuns s runs -> DigitRuns (pre ++ s) runs.
Proof.
  induction pre as [|c pre IH]; intros s runs Hp H; [assumption|].
  inversion Hp as [|? ? Hc Hp']; subst. cbn [app].
  apply DigitRuns_skip; [assumption|now apply IH].
Qed.

Lemma DigitRuns_join : forall a ra,
  DigitRuns a ra ->
  forall c b rb, isDigit c = false -> DigitRuns b rb ->
  DigitRuns (a ++ c :: b) (ra ++ rb).
Proof.
  induction 1 as [a Ha|pre run rest runs Hp Hne Hr Hf Hrest IH];
    intros c b rb Hc Hb.
  - cbn [app]. apply DigitRuns_skip_prefix; [assumption|].
    now apply DigitRuns_skip.
  - rewrite <- !app_assoc. cbn [app]. apply runs_next; try assumption.
    + destruct rest as [|d rest]; [exact Hc|exact Hf].
    + now apply IH.
Qed.

(** X1.  A character that is not a digit separates the numbers on its two
    sides: the magnitude of the whole text is the sum of the magnitudes
    of the two parts, as long as that sum is below 2^53, where the
    additions are exact.  This is why "1.5 kg" counts as 1 + 5. *)
Theorem parseQuantity_adds_across_separator :
  forall (a b : jsstring) (c : N),
    isDigit c = false ->
    parseQuantity a + parseQuantity b < safeLimit ->
    parseQuantity (a ++ c :: b) = parseQuantity a + parseQuantity b.
Proof.
  intros a b c Hc Hsum.
  assert (Ea : parseQuantity a = sumList (map decimalValue (matchDigits a)))
    by (apply parseQuantity_small; lia).
  assert (Eb : parseQuantity b = sumList (map decimalValue (matchDigits b)))
    by (apply parseQuantity_small; lia).
  assert (E : matchDigits (a ++ c :: b) = matchDigits a ++ matchDigits b).
  { symmetry. apply DigitRuns_unique.
    exact (DigitRuns_join a _ (matchDigits_runs a) c b _ Hc (matchDigits_runs b)). }
  rewrite parseQuantity_sum; rewrite E, map_app, sumList_app; lia.
Qed.

(** At a concrete input: "1.5 kg", split at the point. *)
Lemma parseQuantity_adds_across_separator_witness :
  isDigit 46 = false
  /\ parseQuantity (js "1") + parseQuantity (js "5 kg") < safeLimit
  /\ parseQuantity (js "1" ++ 46 :: js "5 kg")
     = parseQuantity (js "1") + parseQuantity (js "5 kg").
Proof.
  split; [reflexivity|]. split; [vm_compute; reflexivity|].
  exact (parseQuantity_adds_across_separator (js "1") (js "5 kg") 46
           eq_refl eq_refl).
Defined.

Lemma sameLetters_length : forall a b,
  sameLetters a b -> List.length a = List.length b.
Proof.
  unfold sameLetters. intros a b H.
  rewrite <- (length_map canonicalize a), H. apply length_map.
Qed.

Lemma occursAt_whole : forall tok u,
  sameLetters u tok -> occursAt tok u 0.
Proof.
  intros tok u H. pose proof (sameLetters_length u tok H) as Hl.
  unfold occursAt, slice. cbn [skipn]. rewrite <- Hl, firstn_all.
  split; [simpl; lia|assumption].
Qed.

(** What [getUnit] returns is a unit of the vocabulary up to case. *)
Lemma getUnit_variant : forall s,
  exists tok, In tok units /\ sameLetters (getUnit s) tok.
Proof.
  intro s. unfold getUnit. destruct (firstUnit s) as [m|] eqn:E.
  - destruct (firstUnit_Some s m E) as [tok [i [Hin [[_ Hs] [_ ->]]]]].
    now exists tok.
  - exists (js "adet"). split; [|reflexivity].
    unfold units. cbn [In]. tauto.
Qed.

Lemma matchAlternatives_variant : forall tok u rest,
  In tok units -> sameLetters u tok ->
  matchAlternatives units (u ++ rest) = Some u.
Proof.
  intros tok u rest Hin Hs.
  pose proof (sameLetters_length u tok Hs) as Hl.
  assert (Hocc : occursAt tok (u ++ rest) 0).
  { unfold occursAt, slice. cbn [skipn]. rewrite <- Hl.
    rewrite firstn_app, firstn_all, Nat.sub_diag, firstn_O, app_nil_r.
    split; [rewrite length_app; simpl; lia|assumption]. }
  destruct (matchAlternatives units (u ++ rest)) as [m|] eqn:E.
  - destruct (matchAlternatives_Some _ _ _ E) as [tok' [Hin' [Hm Hocc']]].
    rewrite (units_prefix_free tok' tok _ 0%nat Hin' Hin Hocc' Hocc) in Hm.
    subst m. unfold slice. cbn [skipn]. rewrite <- Hl.
    now rewrite firstn_app, firstn_all, Nat.sub_diag, firstn_O, app_nil_r.
  - exfalso. exact (matchAlternatives_None _ _ E tok Hin Hocc).
Qed.

Lemma firstUnit_variant : forall tok u rest,
  In tok units -> sameLetters u tok -> firstUnit (u ++ rest) = Some u.
Proof.
  intros tok u rest Hin Hs.
  pose proof (matchAlternatives_variant tok u rest Hin Hs) as H.
  destruct (u ++ rest); cbn [firstUnit]; now rewrite H.
Qed.

Lemma matchToken_head : forall p tok c s,
  canonicalize p <> canonicalize c -> matchToken (p :: tok) (c :: s) = None.
Proof.
  intros p tok c s H. cbn [matchToken].
  apply N.eqb_neq in H. now rewrite H.
Qed.

Lemma canonicalize_digitOrSpace : forall c,
  digitOrSpace c -> canonicalize c = c /\ c < 65.
Proof.
  unfold digitOrSpace. intros c [H|H].
  - split; [now apply canonicalize_digit|].
    apply isDigit_bounds in H. lia.
  - subst c. split; reflexivity.
Qed.

Lemma matchAlternatives_digitOrSpace : forall c s,
  digitOrSpace c -> matchAlternatives units (c :: s) = None.
Proof.
  intros c s Hc. destruct (canonicalize_digitOrSpace c Hc) as [Hcan Hlt].
  unfold units. cbn [matchAlternatives app js map list_ascii_of_string].
  repeat (rewrite matchToken_head
            by (rewrite Hcan; vm_compute canonicalize; lia)).
  reflexivity.
Qed.

Lemma firstUnit_skip : forall pre s,
  Forall digitOrSpace pre -> firstUnit (pre ++ s) = firstUnit s.
Proof.
  induction pre as [|c pre IH]; intros s Hp; [reflexivity|].
  inversion Hp as [|? ? Hc Hp']; subst. cbn [app firstUnit].
  rewrite matchAlternatives_digitOrSpace by assumption. now apply IH.
Qed.

Lemma getUnit_after_number : forall pre s,
  Forall digitOrSpace pre -> getUnit (pre ++ getUnit s) = getUnit s.
Proof.
  intros pre s Hp. destruct (getUnit_variant s) as [tok [Hin Hs]].
  unfold getUnit at 1. rewrite firstUnit_skip by assumption.
  rewrite <- (app_nil_r (getUnit s)) at 1.
  now rewrite (firstUnit_variant tok _ [] Hin Hs).
Qed.

(** X2.  [getUnit] always answers with a unit of the vocabulary in some
    casing, "adet" included; the answer holds no digit, so its magnitude
    is 0, and asking for the unit of the answer gives the answer again. *)
Theorem getUnit_returns_a_unit :
  forall s,
    (exists tok, In tok units /\ sameLetters (getUnit s) tok)
    /\ noDigit (getUnit s)
    /\ parseQuantity (getUnit s) = 0
    /\ getUnit (getUnit s) = getUnit s.
Proof.
  intro s. split; [apply getUnit_variant|].
  split; [apply getUnit_noDigit|]. split.
  - unfold parseQuantity, matchDigits.
    now rewrite matchDigitsLoop_noDigit by apply getUnit_noDigit.
  - exact (getUnit_after_number [] s (Forall_nil _)).
Qed.

(* ================================================================== *)
(** * The text of a merge parses back *)
(* ================================================================== *)

Lemma numberToString_digitOrSpace : forall n,
  n < safeLimit ->
  Forall digitOrSpace (numberToString n ++ js " ").
Proof.
  intros n Hn. rewrite numberToString_spec by assumption.
  destruct (decimalDigits_spec n) as [H _].
  apply Forall_app. split.
  - eapply Forall_impl; [|exact H]. intros c Hc. now left.
  - change (js " ") with [32]. constructor; [now right|constructor].
Qed.

(** X3.  As long as the two magnitudes add up to less than 2^53, the
    quantity text a merge writes is read back by the two parsers as what
    went into it: its magnitude is the sum of the two magnitudes and its
    unit is the unit of the product merged in.  The displayed text, the
    sort by quantity and the exported columns therefore agree on a merged
    record. *)
Theorem merged_text_parses_back :
  forall existing p,
    parseQuantity (quantity existing) + parseQuantity (quantity p) < safeLimit ->
    parseQuantity (quantity (combine existing p))
      = parseQuantity (quantity existing) + parseQuantity (quantity p)
    /\ getUnit (quantity (combine existing p)) = getUnit (quantity p)
    /\ originalQuantity (combine existing p) = quantity (combine existing p).
Proof.
  intros existing p H. split; [now apply parseQuantity_combine|].
  split; [|reflexivity].
  unfold combine. cbn [quantity]. rewrite app_assoc.
  apply getUnit_after_number, numberToString_digitOrSpace.
  unfold addNumbers. now rewrite toDouble_exact.
Qed.

(** At a concrete input: "12 kasa" merged into "30 kasa". *)
Lemma merged_text_parses_back_witness :
  parseQuantity (js "30 kasa") + parseQuantity (js "12 kasa") < safeLimit
  /\ parseQuantity
       (quantity
          (combine
             (mkProduct 1 (js "Nar") (js "30 kasa") (js "30 kasa") defaultDate (js "Nar-30 kasa"))
             (mkProduct 2 (js "Nar") (js "12 kasa") (js "12 kasa") defaultDate (js "Nar-12 kasa"))))
     = 42.
Proof.
  assert (H : parseQuantity (js "30 kasa") + parseQuantity (js "12 kasa") < safeLimit)
    by (vm_compute; reflexivity).
  split; [exact H|].
  rewrite (proj1 (merged_text_parses_back
     (mkProduct 1 (js "Nar") (js "30 kasa") (js "30 kasa") defaultDate (js "Nar-30 kasa"))
     (mkProduct 2 (js "Nar") (js "12 kasa") (js "12 kasa") defaultDate (js "Nar-12 kasa"))
     H)).
  vm_compute. reflexivity.
Defined.

(* ================================================================== *)
(** * The view as a whole: what is shown, and in which order *)
(* ================================================================== *)

Lemma sortView_perm : forall toLowerCase localeCompare sortBy sortColumn l,
  Permutation (sortView toLowerCase localeCompare sortBy sortColumn l) l.
Proof.
  intros toLowerCase localeCompare sortBy sortColumn l.
  destruct sortBy; cbn [sortView]; try reflexivity; apply sortWith_perm.
Qed.

Lemma map_item_annotate : forall l, map item (annotate l) = l.
Proof.
  intro l. unfold annotate. rewrite map_map. cbn [annotateWith item].
  apply map_id.
Qed.

Lemma sumList_perm : forall a b, Permutation a b -> sumList a = sumList b.
Proof.
  induction 1 as [|x a b H IH|x y a|a b c H1 IH1 H2 IH2]; cbn [sumList fold_right].
  - reflexivity.
  - fold (sumList a). fold (sumList b). now rewrite IH.
  - lia.
  - congruence.
Qed.

Lemma aggregate_In : forall l g,
  In g (aggregate l) ->
  exists first,
    In first l /\ id g = id first /\ name g = name first
    /\ date g = date first /\ uniqueKey g = uniqueKey first.
Proof.
  intros l g Hin. unfold aggregate in Hin. apply in_map_iff in Hin.
  destruct Hin as [[k g'] [Hg Hin]]. cbn [snd] in Hg. subst g'.
  destruct (groupProducts_members l k g Hin) as [first [rest [Hm ->]]].
  exists first.
  destruct (fold_combine_fields rest first) as [H1 [H2 [H3 [H4 _]]]].
  split; [|now repeat split].
  assert (H : In first (members k l)) by (rewrite Hm; now left).
  apply filter_In in H. apply H.
Qed.

(** X4.  The exported table neither loses nor doubles a quantity: it has one
    row per displayed record, and, as long as the magnitudes of the
    products that passed the date and the text filter add up to less than
    2^53, its "miktar" column adds up to that same total, whatever the
    sort. *)
Theorem csvContent_keeps_total :
  forall (formatDate toLowerCase : jsstring -> jsstring)
         (localeCompare : jsstring -> jsstring -> Z)
         (products : list product) (searchTerm : jsstring)
         (sortBy : SortBy) (sortColumn : SortColumn) (selectedDate : jsstring),
    totalMagnitude
      (textFilter toLowerCase searchTerm (dateFilter selectedDate products))
      < safeLimit ->
    List.length
      (csvContent formatDate
         (filteredProducts toLowerCase localeCompare products searchTerm
            sortBy sortColumn selectedDate))
    = shownCount
        (filteredProducts toLowerCase localeCompare products searchTerm
           sortBy sortColumn selectedDate)
    /\ totalExported
         (csvContent formatDate
            (filteredProducts toLowerCase localeCompare products searchTerm
               sortBy sortColumn selectedDate))
       = totalMagnitude
           (textFilter toLowerCase searchTerm (dateFilter selectedDate products)).
Proof.
  intros formatDate toLowerCase localeCompare products searchTerm
         sortBy sortColumn selectedDate Htot.
  split; [apply length_map|].
  unfold totalExported, csvContent. rewrite map_map. cbn [miktar].
  unfold filteredProducts.
  rewrite (sumList_perm _ _
             (Permutation_map _ (sortView_perm toLowerCase localeCompare
                                   sortBy sortColumn _))).
  rewrite <- (map_map item (fun p => parseQuantity (quantity p))).
  rewrite map_item_annotate. now apply aggregate_total.
Qed.

(** At a concrete input: the repeated rows, unfiltered and unsorted, export
    two rows whose "miktar" column adds up to 5. *)
Lemma csvContent_keeps_total_witness :
  totalMagnitude
    (textFilter asciiLower [] (dateFilter defaultDate (processedProducts repeatedRows)))
    < safeLimit
  /\ totalExported
       (csvContent (fun d => d)
          (filteredProducts asciiLower codeUnitCompare
             (processedProducts repeatedRows) [] none byName defaultDate))
     = 5.
Proof.
  assert (H : totalMagnitude
    (textFilter asciiLower [] (dateFilter defaultDate (processedProducts repeatedRows)))
    < safeLimit) by (vm_compute; reflexivity).
  split; [exact H|].
  rewrite (proj2 (csvContent_keeps_total (fun d => d) asciiLower codeUnitCompare
                    (processedProducts repeatedRows) [] none byName defaultDate H)).
  vm_compute. reflexivity.
Defined.

Lemma processedProducts_date : forall data p,
  In p (processedProducts data) -> date p = defaultDate.
Proof.
  intros data p Hp. unfold processedProducts in Hp. apply filter_In in Hp.
  destruct Hp as [Hp _]. apply mapFrom_In in Hp.
  destruct Hp as [i [r [_ ->]]]. reflexivity.
Qed.

(** X5.  Every loaded product carries the date 2025-08-26: for that date the
    date filter keeps all of them, and for any other selected date the
    view is empty. *)
Theorem view_is_empty_on_any_other_date :
  forall (toLowerCase : jsstring -> jsstring)
         (localeCompare : jsstring -> jsstring -> Z)
         (data : list RawRow) (searchTerm : jsstring)
         (sortBy : SortBy) (sortColumn : SortColumn) (selectedDate : jsstring),
    dateFilter defaultDate (processedProducts data) = processedProducts data
    /\ (selectedDate <> defaultDate ->
        filteredProducts toLowerCase localeCompare (processedProducts data)
          searchTerm sortBy sortColumn selectedDate = []).
Proof.
  intros toLowerCase localeCompare data searchTerm sortBy sortColumn selectedDate.
  split.
  - apply filter_all. intros p Hp.
    rewrite (processedProducts_date data p Hp). apply eqb_str_refl.
  - intro Hd. unfold filteredProducts.
    replace (dateFilter selectedDate (processedProducts data)) with (@nil product).
    + unfold textFilter. destruct (truthy searchTerm); cbn [filter];
        now destruct sortBy.
    + symmetry. apply filter_none. intros p Hp.
      rewrite (processedProducts_date data p Hp). apply eqb_str_neq. congruence.
Qed.

(** At a concrete input: the example rows on the day after. *)
Lemma view_is_empty_on_any_other_date_witness :
  js "2025-08-27" <> defaultDate
  /\ filteredProducts asciiLower codeUnitCompare (processedProducts exampleRows)
       [] desc byQuantity (js "2025-08-27") = [].
Proof.
  assert (H : js "2025-08-27" <> defaultDate) by (vm_compute; discriminate).
  split; [exact H|].
  exact (proj2 (view_is_empty_on_any_other_date asciiLower codeUnitCompare
                  exampleRows [] desc byQuantity (js "2025-08-27")) H).
Defined.

Lemma aggregate_length_keys : forall l,
  List.length (aggregate l) = List.length (firstSeen (map groupKey l)).
Proof.
  intro l. unfold aggregate.
  now rewrite length_map, <- (length_map fst), groupProducts_keys.
Qed.

(** X6.  A search never adds rows: with a search text the view has at most as
    many records as without one. *)
Theorem search_never_adds_rows :
  forall (toLowerCase : jsstring -> jsstring)
         (localeCompare : jsstring -> jsstring -> Z)
         (products : list product) (searchTerm : jsstring)
         (sortBy : SortBy) (sortColumn : SortColumn) (selectedDate : jsstring),
    (shownCount (filteredProducts toLowerCase localeCompare products searchTerm
                   sortBy sortColumn selectedDate)
     <= shownCount (filteredProducts toLowerCase localeCompare products []
                      sortBy sortColumn selectedDate))%nat.
Proof.
  intros toLowerCase localeCompare products searchTerm sortBy sortColumn selectedDate.
  unfold shownCount, filteredProducts. rewrite !sortView_length.
  unfold annotate. rewrite !length_map, !aggregate_length_keys.
  apply NoDup_incl_length; [apply firstSeen_NoDup|].
  intros k Hk. apply (proj2 (firstSeen_In _ _)).
  apply (proj1 (firstSeen_In _ _)) in Hk.
  apply in_map_iff in Hk. destruct Hk as [p [<- Hp]]. apply in_map.
  unfold textFilter in *. cbn [truthy].
  destruct (truthy searchTerm); [|assumption].
  apply filter_In in Hp. apply Hp.
Qed.

(** X7.  Every displayed record belongs to the selected date, and with a
    search text its name, lower-cased, contains the lower-cased text. *)
Theorem shown_records_pass_the_filters :
  forall (toLowerCase : jsstring -> jsstring)
         (localeCompare : jsstring -> jsstring -> Z)
         (products : list product) (searchTerm : jsstring)
         (sortBy : SortBy) (sortColumn : SortColumn) (selectedDate : jsstring)
         (s : shownProduct),
    In s (filteredProducts toLowerCase localeCompare products searchTerm
            sortBy sortColumn selectedDate) ->
    date (item s) = selectedDate
    /\ (searchTerm <> [] ->
        includes (toLowerCase (name (item s))) (toLowerCase searchTerm) = true).
Proof.
  intros toLowerCase localeCompare products searchTerm sortBy sortColumn
         selectedDate s Hs.
  unfold filteredProducts in Hs.
  apply (Permutation_in _ (sortView_perm _ _ _ _ _)) in Hs.
  apply (in_map item) in Hs. rewrite map_item_annotate in Hs.
  destruct (aggregate_In _ _ Hs) as [first [Hf [_ [Hn [Hd _]]]]].
  rewrite Hn, Hd. unfold textFilter in Hf.
  destruct searchTerm as [|c searchTerm]; cbn [truthy] in Hf.
  - apply filter_In in Hf. destruct Hf as [_ Hf]. apply eqb_str_eq in Hf.
    split; [assumption|congruence].
  - apply filter_In in Hf. destruct Hf as [Hf Hm].
    apply filter_In in Hf. destruct Hf as [_ Hf]. apply eqb_str_eq in Hf.
    split; [assumption|]. intros _. exact Hm.
Qed.

(** At a concrete input: the example rows searched for "elma". *)
Lemma shown_records_pass_the_filters_witness :
  In (mkShown (mkProduct 1 (js "Elma") (js "2 kg") (js "2 kg") defaultDate
                 (js "Elma-2 kg")) (Num 2) true)
     (filteredProducts asciiLower codeUnitCompare (processedProducts exampleRows)
        (js "elma") none byName defaultDate)
  /\ defaultDate = defaultDate
  /\ (js "elma" <> [] ->
      includes (asciiLower (js "Elma")) (asciiLower (js "elma")) = true).
Proof.
  assert (H : In (mkShown (mkProduct 1 (js "Elma") (js "2 kg") (js "2 kg")
                    defaultDate (js "Elma-2 kg")) (Num 2) true)
     (filteredProducts asciiLower codeUnitCompare (processedProducts exampleRows)
        (js "elma") none byName defaultDate)) by (left; reflexivity).
  split; [exact H|].
  exact (shown_records_pass_the_filters asciiLower codeUnitCompare
           (processedProducts exampleRows) (js "elma") none byName defaultDate
           _ H).
Defined.

(* ================================================================== *)
(** * Sorting: what every mode guarantees *)
(* ================================================================== *)

Lemma StronglySorted_weaken : forall (A : Type) (R R' : A -> A -> Prop) l,
  (forall a b, R a b -> R' a b) -> StronglySorted R l -> StronglySorted R' l.
Proof.
  intros A R R' l H. induction 1 as [|a l Hs IH Ha]; constructor;
    [assumption|]. eapply Forall_impl; [|exact Ha]. intros b. apply H.
Qed.

Lemma comparison_byQuantity_consistent :
  forall (toLowerCase : jsstring -> jsstring) (localeCompare : jsstring -> jsstring -> Z),
    consistentComparator (comparison toLowerCase localeCompare byQuantity).
Proof.
  intros toLowerCase localeCompare. split; cbn [comparison].
  - intros x y.
    replace (Z.of_N (parseQuantity (quantity (item y)))
             - Z.of_N (parseQuantity (quantity (item x))))%Z
      with (- (Z.of_N (parseQuantity (quantity (item x)))
               - Z.of_N (parseQuantity (quantity (item y)))))%Z by lia.
    apply Z.sgn_opp.
  - intros x y z. lia.
Qed.

(** X8.  Sorting only reorders: for every direction and column the view holds
    the same records, with the same annotations, as the unsorted view. *)
Theorem sorting_only_reorders :
  forall (toLowerCase : jsstring -> jsstring)
         (localeCompare : jsstring -> jsstring -> Z)
         (products : list product) (searchTerm : jsstring)
         (sortBy : SortBy) (sortColumn otherColumn : SortColumn)
         (selectedDate : jsstring),
    Permutation
      (filteredProducts toLowerCase localeCompare products searchTerm
         sortBy sortColumn selectedDate)
      (filteredProducts toLowerCase localeCompare products searchTerm
         none otherColumn selectedDate).
Proof.
  intros. unfold filteredProducts. cbn [sortView]. apply sortView_perm.
Qed.

(** X9.  Sorting by quantity puts the records in order of their magnitude:
    ascending, no record is followed by one of smaller magnitude;
    descending, none is followed by one of larger magnitude. *)
Theorem quantity_sort_orders_by_magnitude :
  forall (toLowerCase : jsstring -> jsstring)
         (localeCompare : jsstring -> jsstring -> Z)
         (l : list shownProduct),
    StronglySorted (fun a b => shownMagnitude a <= shownMagnitude b)
      (sortView toLowerCase localeCompare asc byQuantity l)
    /\ StronglySorted (fun a b => shownMagnitude b <= shownMagnitude a)
      (sortView toLowerCase localeCompare desc byQuantity l).
Proof.
  intros toLowerCase localeCompare l.
  pose proof (comparison_byQuantity_consistent toLowerCase localeCompare) as Hc.
  split; cbn [sortView].
  - eapply StronglySorted_weaken; [|exact (sortWith_sorted _ _ l Hc)].
    intros a b H. unfold notAfter, comparator, comparison, shownMagnitude in *.
    lia.
  - eapply StronglySorted_weaken;
      [|exact (sortWith_sorted _ _ l (negated_comparator_consistent _ _ Hc))].
    intros a b H. unfold notAfter, comparator, comparison, shownMagnitude in *.
    lia.
Qed.

(** X10.  With a consistent collation, sorting by name puts the records in
    order of their lower-cased names: ascending, no record is followed by
    one whose name collates before its own; descending, none is followed
    by one whose name collates after its own. *)
Theorem name_sort_orders_by_collation :
  forall (toLowerCase : jsstring -> jsstring)
         (localeCompare : jsstring -> jsstring -> Z)
         (l : list shownProduct),
    consistentComparator localeCompare ->
    StronglySorted
      (fun a b => (localeCompare (toLowerCase (name (item a)))
                                 (toLowerCase (name (item b))) <= 0)%Z)
      (sortView toLowerCase localeCompare asc byName l)
    /\ StronglySorted
      (fun a b => (0 <= localeCompare (toLowerCase (name (item a)))
                                      (toLowerCase (name (item b))))%Z)
      (sortView toLowerCase localeCompare desc byName l).
Proof.
  intros toLowerCase localeCompare l Hl.
  pose proof (comparison_byName_consistent toLowerCase localeCompare Hl) as Hc.
  split; cbn [sortView].
  - exact (sortWith_sorted _ _ l Hc).
  - eapply StronglySorted_weaken;
      [|exact (sortWith_sorted _ _ l (negated_comparator_consistent _ _ Hc))].
    intros a b H. unfold notAfter, comparator, comparison in *. lia.
Qed.

(** At a concrete input: three products under the code-unit order. *)
Lemma name_sort_orders_by_collation_witness :
  consistentComparator codeUnitCompare
  /\ StronglySorted
       (fun a b => (codeUnitCompare (asciiLower (name (item a)))
                                    (asciiLower (name (item b))) <= 0)%Z)
       (sortView asciiLower codeUnitCompare asc byName
          (annotate (aggregate (processedProducts threeProductsRows)))).
Proof.
  split; [exact codeUnitCompare_consistent|].
  exact (proj1 (name_sort_orders_by_collation asciiLower codeUnitCompare
                  (annotate (aggregate (processedProducts threeProductsRows)))
                  codeUnitCompare_consistent)).
Defined.

(* ================================================================== *)
(** * The keys of the rendered rows *)
(* ================================================================== *)

Lemma processedProducts_uniqueKey : forall data p,
  In p (processedProducts data) -> uniqueKey p = groupKey p.
Proof.
  intros data p Hp. unfold processedProducts in Hp. apply filter_In in Hp.
  destruct Hp as [Hp _]. apply mapFrom_In in Hp.
  destruct Hp as [i [r [_ ->]]]. reflexivity.
Qed.

Lemma NoDup_map_filter : forall (A B : Type) (f : A -> B) (g : A -> bool) l,
  NoDup (map f l) -> NoDup (map f (filter g l)).
Proof.
  intros A B f g. induction l as [|x l IH]; intro H; [constructor|].
  cbn [map] in H. inversion H as [|? ? Hx Hl]; subst. cbn [filter].
  destruct (g x); [|now apply IH]. cbn [map]. constructor; [|now apply IH].
  intro Hin. apply Hx. apply in_map_iff in Hin. destruct Hin as [y [Hy Hin]].
  apply filter_In in Hin. apply in_map_iff. exists y. now split; [|apply Hin].
Qed.

Lemma StronglySorted_lt_NoDup : forall l, StronglySorted N.lt l -> NoDup l.
Proof.
  induction 1 as [|a l Hs IH Ha]; constructor; [|assumption].
  intro Hin. rewrite Forall_forall in Ha. specialize (Ha a Hin). lia.
Qed.

Lemma aggregate_ids_distinct : forall l,
  NoDup (map id l) -> NoDup (map id (aggregate l)).
Proof.
  induction l as [l IH] using list_length_ind. intro Hl.
  destruct l as [|p l]; [constructor|].
  rewrite aggregate_cons. cbn [map] in *. inversion Hl as [|? ? Hp Hl']; subst.
  destruct (fold_combine_fields (members (groupKey p) l) p) as [Hid _].
  cbn zeta in Hid. rewrite Hid. constructor.
  - intro Hin. apply in_map_iff in Hin. destruct Hin as [g [Hg Hin]].
    destruct (aggregate_In _ _ Hin) as [first [Hf [Hidf _]]].
    apply filter_In in Hf. apply Hp. apply in_map_iff.
    exists first. split; [congruence|apply Hf].
  - apply IH; [apply others_shorter|]. now apply NoDup_map_filter.
Qed.

(** X11.  The rows the page renders have pairwise distinct keys: in every view
    of a loaded file no two displayed records share their [uniqueKey],
    which React receives as the key of the row, and no two share an id. *)
Theorem rendered_keys_are_distinct :
  forall (toLowerCase : jsstring -> jsstring)
         (localeCompare : jsstring -> jsstring -> Z)
         (data : list RawRow) (searchTerm : jsstring)
         (sortBy : SortBy) (sortColumn : SortColumn) (selectedDate : jsstring),
    let shown := filteredProducts toLowerCase localeCompare
                   (processedProducts data) searchTerm sortBy sortColumn
                   selectedDate in
    NoDup (map (fun s => uniqueKey (item s)) shown)
    /\ NoDup (map (fun s => id (item s)) shown).
Proof.
  intros toLowerCase localeCompare data searchTerm sortBy sortColumn
         selectedDate shown.
  set (filtered := textFilter toLowerCase searchTerm
                     (dateFilter selectedDate (processedProducts data))).
  assert (Hsub : forall p, In p filtered -> In p (processedProducts data)).
  { intros p Hp. unfold filtered, textFilter, dateFilter in Hp.
    destruct (truthy searchTerm).
    - apply filter_In in Hp. destruct Hp as [Hp _].
      apply filter_In in Hp. apply Hp.
    - apply filter_In in Hp. apply Hp. }
  assert (Hids : NoDup (map id filtered)).
  { unfold filtered, textFilter, dateFilter.
    pose proof (StronglySorted_lt_NoDup _
                  (proj1 (processed_ids_increase data 0))) as H.
    fold (processedProducts data) in H.
    destruct (truthy searchTerm).
    - do 2 apply NoDup_map_filter. exact H.
    - apply NoDup_map_filter. exact H. }
  assert (Hperm : Permutation shown (annotate (aggregate filtered)))
    by apply sortView_perm.
  split.
  - apply (Permutation_NoDup (Permutation_sym (Permutation_map _ Hperm))).
    rewrite <- (map_map item uniqueKey), map_item_annotate.
    rewrite aggregate_uniqueKeys.
    + rewrite groupProducts_keys. apply firstSeen_NoDup.
    + intros p Hp. apply (processedProducts_uniqueKey data). now apply Hsub.
  - apply (Permutation_NoDup (Permutation_sym (Permutation_map _ Hperm))).
    rewrite <- (map_map item id), map_item_annotate.
    now apply aggregate_ids_distinct.
Qed.

(* ================================================================== *)
(** * The records the normaliser builds *)
(* ================================================================== *)

Lemma trimStart_clean : forall s, startsClean (trimStart s).
Proof.
  induction s as [|c r IH]; cbn [trimStart]; [exact I|].
  destruct (isWhiteSpace c) eqn:E; [assumption|exact E].
Qed.

Lemma trimStart_fixed : forall s, startsClean s -> trimStart s = s.
Proof.
  intros [|c r] H; [reflexivity|]. cbn [trimStart]. unfold startsClean in H.
  now rewrite H.
Qed.

Lemma trimStart_suffix : forall s, exists ws, s = ws ++ trimStart s.
Proof.
  induction s as [|c r [ws IH]]; [now exists []|].
  cbn [trimStart]. destruct (isWhiteSpace c).
  - exists (c :: ws). cbn [app]. now rewrite <- IH.
  - now exists [].
Qed.

Lemma trim_trimmed : forall s, trimmed (trim s).
Proof.
  intro s. unfold trim, trimmed. rewrite rev_involutive. split.
  - destruct (trimStart_suffix (rev (trimStart s))) as [ws H].
    apply (f_equal (@rev N)) in H. rewrite rev_involutive, rev_app_distr in H.
    pose proof (trimStart_clean s) as Hc. rewrite H in Hc.
    destruct (rev (trimStart (rev (trimStart s)))); [exact I|exact Hc].
  - apply trimStart_clean.
Qed.

Lemma trimmed_fixed : forall s, trimmed s -> trim s = s.
Proof.
  intros s [H1 H2]. unfold trim.
  now rewrite (trimStart_fixed s H1), (trimStart_fixed (rev s) H2), rev_involutive.
Qed.

(** X12.  Every record the normaliser keeps is complete and clean: name and
    quantity are non-empty and have no white space at either end, so
    trimming them again changes nothing; the original quantity is the
    quantity, the date is 2025-08-26, the unique key is the name, a
    hyphen and the quantity, and the id lies between 1 and the number of
    rows. *)
Theorem processedProducts_records_are_clean :
  forall (data : list RawRow) (p : product),
    In p (processedProducts data) ->
    name p <> [] /\ quantity p <> []
    /\ trimmed (name p) /\ trimmed (quantity p)
    /\ trim (name p) = name p /\ trim (quantity p) = quantity p
    /\ originalQuantity p = quantity p
    /\ date p = defaultDate
    /\ uniqueKey p = name p ++ js "-" ++ quantity p
    /\ 1 <= id p <= N.of_nat (List.length data).
Proof.
  intros data p Hp. unfold processedProducts in Hp. apply filter_In in Hp.
  destruct Hp as [Hp Hk]. unfold keepProduct in Hk.
  apply andb_true_iff in Hk. destruct Hk as [Hn Hq].
  apply truthy_nonempty in Hn, Hq.
  apply mapFrom_In in Hp. destruct Hp as [i [r [Hi ->]]].
  assert (Hlt : (i < List.length data)%nat)
    by (apply nth_error_Some; congruence).
  cbn [toProduct name quantity originalQuantity date uniqueKey id] in *.
  repeat split; try assumption; try apply trim_trimmed;
    try (apply trimmed_fixed, trim_trimmed); lia.
Qed.

(** At a concrete input: the kept row of [rowsWithGap]. *)
Lemma processedProducts_records_are_clean_witness :
  In (mkProduct 2 (js "Elma") (js "2 kg") (js "2 kg") defaultDate (js "Elma-2 kg"))
     (processedProducts rowsWithGap)
  /\ trim (js "Elma") = js "Elma".
Proof.
  assert (H : In (mkProduct 2 (js "Elma") (js "2 kg") (js "2 kg") defaultDate
                    (js "Elma-2 kg")) (processedProducts rowsWithGap))
    by (left; reflexivity).
  split; [exact H|].
  exact (proj1 (proj2 (proj2 (proj2 (proj2
           (processedProducts_records_are_clean rowsWithGap _ H)))))).
Defined.

(* ================================================================== *)
(** * Grouping a list without repeated keys *)
(* ================================================================== *)

(** X13.  When no two products have the same group key, grouping changes
    nothing: the aggregated list is the input list, record for record and
    in the same order, every quantity text untouched. *)
Theorem aggregate_leaves_distinct_keys_alone :
  forall l : list product,
    NoDup (map groupKey l) -> aggregate l = l.
Proof.
  induction l as [|p l IH]; intro H; [reflexivity|].
  cbn [map] in H. inversion H as [|? ? Hp Hl]; subst.
  assert (Hk : forall q, In q l -> eqb_str (groupKey q) (groupKey p) = false).
  { intros q Hq. apply eqb_str_neq. intro E. apply Hp. rewrite <- E.
    now apply in_map. }
  rewrite aggregate_cons. unfold members, others.
  rewrite (filter_none _ _ l Hk). cbn [fold_left]. f_equal.
  rewrite filter_all; [now apply IH|].
  intros q Hq. now rewrite (Hk q Hq).
Qed.

(** At a concrete input: three products with three different keys. *)
Lemma aggregate_leaves_distinct_keys_alone_witness :
  NoDup (map groupKey (processedProducts threeProductsRows))
  /\ aggregate (processedProducts threeProductsRows)
     = processedProducts threeProductsRows.
Proof.
  assert (H : NoDup (map groupKey (processedProducts threeProductsRows))).
  { vm_compute. repeat constructor; simpl; intuition discriminate. }
  split; [exact H|].
  exact (aggregate_leaves_distinct_keys_alone _ H).
Defined.

(* ================================================================== *)
(** * The header buttons *)
(* ================================================================== *)

(** X14.  A click on a header makes its column the sorted one.  Coming from the
    other column the direction starts at ascending; further clicks on the
    same header run through descending, unsorted and ascending again, so
    every fourth click repeats the state reached by the first. *)
Theorem handleSort_cycles_in_three :
  forall (st : SortState) (column : SortColumn),
    let first := handleSort st column in
    sortColumn first = column
    /\ (sameColumn (sortColumn st) column = false -> sortBy first = asc)
    /\ (sortBy first = asc ->
        sortBy (handleSort first column) = desc
        /\ sortBy (handleSort (handleSort first column) column) = none)
    /\ handleSort (handleSort (handleSort first column) column) column = first.
Proof.
  intros [[] []] []; cbn; repeat split; intros; try reflexivity;
    discriminate.
Qed.

(** At a concrete input: the first click on the name header. *)
Lemma handleSort_cycles_in_three_witness :
  sameColumn (sortColumn initialSort) byName = false
  /\ sortBy (handleSort initialSort byName) = asc.
Proof.
  split; [reflexivity|].
  exact (proj1 (proj2 (handleSort_cycles_in_three initialSort byName)) eq_refl).
Defined.

(** X15.  The icons follow the state: at most one header shows an arrow, the
    arrow points up for ascending and down for descending, a first click
    on the other header puts the up arrow there, and when neither header
    shows an arrow the list is left in the order of the grouping. *)
Theorem getSortIcon_shows_the_sort :
  forall (toLowerCase : jsstring -> jsstring)
         (localeCompare : jsstring -> jsstring -> Z)
         (st : SortState) (column : SortColumn) (l : list shownProduct),
    (getSortIcon st byName = SortAscIcon \/ getSortIcon st byQuantity = SortAscIcon)
    /\ (getSortIcon st column = ArrowUpIcon
        <-> sortColumn st = column /\ sortBy st = asc)
    /\ (getSortIcon st column = ArrowDownIcon
        <-> sortColumn st = column /\ sortBy st = desc)
    /\ (sameColumn (sortColumn st) column = false ->
        getSortIcon (handleSort st column) column = ArrowUpIcon)
    /\ (getSortIcon st byName = SortAscIcon ->
        getSortIcon st byQuantity = SortAscIcon ->
        sortView toLowerCase localeCompare (sortBy st) (sortColumn st) l = l).
Proof.
  intros toLowerCase localeCompare [[] []] [] l; cbn;
    repeat split; intros; try reflexivity; try tauto;
    try discriminate; try (destruct H; discriminate).
Qed.

(** At a concrete input: a fresh page sorts by quantity, descending; one
    click on the quantity header leaves no arrow and an unsorted list. *)
Lemma getSortIcon_shows_the_sort_witness :
  getSortIcon (handleSort initialSort byQuantity) byName = SortAscIcon
  /\ getSortIcon (handleSort initialSort byQuantity) byQuantity = SortAscIcon
  /\ sortView asciiLower codeUnitCompare
       (sortBy (handleSort initialSort byQuantity))
       (sortColumn (handleSort initialSort byQuantity))
       (annotate (aggregate (processedProducts exampleRows)))
     = annotate (aggregate (processedProducts exampleRows)).
Proof.
  split; [reflexivity|]. split; [reflexivity|].
  exact (proj2 (proj2 (proj2 (proj2
           (getSortIcon_shows_the_sort asciiLower codeUnitCompare
              (handleSort initialSort byQuantity) byName
              (annotate (aggregate (processedProducts exampleRows)))))))
           eq_refl eq_refl).
Defined.

(* ================================================================== *)
(** * The footer *)
(* ================================================================== *)

Lemma filter_length_all : forall (A : Type) (f : A -> bool) l,
  List.length (filter f l) = List.length l -> forall x, In x l -> f x = true.
Proof.
  intros A f. induction l as [|y l IH]; intros H x Hx; [contradiction|].
  cbn [filter] in H. pose proof (filter_length_le _ f l) as Hle.
  destruct (f y) eqn:E; cbn [List.length] in H; [|lia].
  destruct Hx as [<-|Hx]; [assumption|]. apply IH; [lia|assumption].
Qed.

Lemma firstSeen_of_NoDup : forall keys, NoDup keys -> firstSeen keys = keys.
Proof.
  induction keys as [|k rest IH]; intro H; [reflexivity|].
  inversion H as [|? ? Hk Hrest]; subst. cbn [firstSeen].
  rewrite (IH Hrest). f_equal. apply filter_all.
  intros x Hx. apply negb_true_iff, eqb_str_neq. intros ->. contradiction.
Qed.

Lemma firstSeen_length_NoDup : forall keys,
  List.length (firstSeen keys) = List.length keys <-> NoDup keys.
Proof.
  intro keys. split; [|intro H; now rewrite firstSeen_of_NoDup].
  induction keys as [|k rest IH]; intro H; [constructor|].
  cbn [firstSeen List.length] in H.
  pose proof (filter_length_le _ (fun k' => negb (eqb_str k' k)) (firstSeen rest)) as H1.
  pose proof (firstSeen_length rest) as H2.
  assert (Hrest : NoDup rest) by (apply IH; lia).
  constructor; [|assumption]. intro Hin.
  rewrite (firstSeen_of_NoDup rest Hrest) in H.
  assert (Hlen : List.length (filter (fun k' => negb (eqb_str k' k)) rest)
                 = List.length rest) by lia.
  pose proof (filter_length_all _ _ rest Hlen k Hin) as Hf.
  cbn beta in Hf. now rewrite eqb_str_refl in Hf.
Qed.

Lemma occurrences_cons : forall n p l,
  occurrences n (p :: l)
  = ((if eqb_str (name p) n then 1 else 0) + occurrences n l)%nat.
Proof.
  intros n p l. unfold occurrences. cbn [filter].
  now destruct (eqb_str (name p) n).
Qed.

Lemma occurrences_zero : forall n l,
  ~ In n (map name l) -> occurrences n l = 0%nat.
Proof.
  intros n l H. unfold occurrences. rewrite filter_none; [reflexivity|].
  intros p Hp. apply eqb_str_neq. intros <-. apply H. now apply in_map.
Qed.

Lemma names_NoDup_occurrences : forall l,
  NoDup (map name l) <-> forall p, In p l -> occurrences (name p) l = 1%nat.
Proof.
  induction l as [|q l IH]; [split; [contradiction|constructor]|].
  cbn [map]. split.
  - intros H p Hp. inversion H as [|? ? Hq Hl]; subst.
    rewrite occurrences_cons. destruct Hp as [<-|Hp].
    + now rewrite eqb_str_refl, occurrences_zero.
    + replace (eqb_str (name q) (name p)) with false.
      * now apply IH.
      * symmetry. apply eqb_str_neq. intro E. apply Hq. rewrite E.
        now apply in_map.
  - intro H.
    assert (Hq : ~ In (name q) (map name l)).
    { intro Hin. apply in_map_iff in Hin. destruct Hin as [p [Hn Hp]].
      pose proof (H q (or_introl eq_refl)) as H1.
      rewrite occurrences_cons, eqb_str_refl in H1.
      pose proof (occurrences_positive l p Hp) as H2. rewrite Hn in H2. lia. }
    constructor; [assumption|]. apply IH. intros p Hp.
    specialize (H p (or_intror Hp)). rewrite occurrences_cons in H.
    destruct (eqb_str (name q) (name p)) eqn:E; [|assumption].
    apply eqb_str_eq in E. exfalso. apply Hq. rewrite E. now apply in_map.
Qed.

Lemma footerNote_None : forall shown,
  footerNote shown = None <-> NoDup (map (fun s => name (item s)) shown).
Proof.
  intro shown. unfold footerNote, uniqueProducts.
  rewrite <- firstSeen_length_NoDup, <- (length_map (fun s => name (item s)) shown).
  destruct (Nat.eqb_spec
              (List.length (firstSeen (map (fun s => name (item s)) shown)))
              (List.length (map (fun s => name (item s)) shown)));
    split; congruence.
Qed.

(** X16.  Footer and badges agree on names that [Object.prototype] does not
    know: in a view whose names are all of that kind, the footer leaves
    out the number of different products exactly when no displayed record
    is flagged as a duplicate. *)
Theorem footer_note_agrees_with_badges :
  forall (toLowerCase : jsstring -> jsstring)
         (localeCompare : jsstring -> jsstring -> Z)
         (products : list product) (searchTerm : jsstring)
         (sortBy : SortBy) (sortColumn : SortColumn) (selectedDate : jsstring),
    let shown := filteredProducts toLowerCase localeCompare products searchTerm
                   sortBy sortColumn selectedDate in
    (forall s, In s shown -> inherited (name (item s)) = Undefined) ->
    (footerNote shown = None <-> forall s, In s shown -> isDuplicate s = false).
Proof.
  intros toLowerCase localeCompare products searchTerm sortBy sortColumn
         selectedDate shown Hord.
  set (l := aggregate (textFilter toLowerCase searchTerm
                         (dateFilter selectedDate products))).
  assert (Hperm : Permutation shown (annotate l)) by apply sortView_perm.
  assert (Hnames : Permutation (map (fun s => name (item s)) shown) (map name l)).
  { rewrite (Permutation_map _ Hperm), <- (map_map item name).
    now rewrite map_item_annotate. }
  assert (Hflag : forall p, In p l ->
            isDuplicate (annotateWith (countNames l) p)
            = (1 <? N.of_nat (occurrences (name p) l))).
  { intros p Hp. apply annotate_counts_ordinary_names; [assumption|].
    apply (Hord (annotateWith (countNames l) p)).
    apply (Permutation_in _ (Permutation_sym Hperm)).
    unfold annotate. now apply in_map. }
  rewrite footerNote_None. split.
  - intros Hnd s Hs.
    apply (Permutation_NoDup Hnames) in Hnd.
    apply (Permutation_in _ Hperm) in Hs. unfold annotate in Hs.
    apply in_map_iff in Hs. destruct Hs as [p [<- Hp]].
    rewrite (Hflag p Hp), (proj1 (names_NoDup_occurrences l) Hnd p Hp).
    reflexivity.
  - intro Hnone. apply (Permutation_NoDup (Permutation_sym Hnames)).
    apply names_NoDup_occurrences. intros p Hp.
    assert (Hs : In (annotateWith (countNames l) p) shown).
    { apply (Permutation_in _ (Permutation_sym Hperm)).
      unfold annotate. now apply in_map. }
    specialize (Hnone _ Hs). rewrite (Hflag p Hp) in Hnone.
    apply N.ltb_ge in Hnone. pose proof (occurrences_positive l p Hp). lia.
Qed.

(** At a concrete input: the three example rows, where "Elma" comes in
    two groups. *)
Lemma footer_note_agrees_with_badges_witness :
  (forall s,
      In s (filteredProducts asciiLower codeUnitCompare
              (processedProducts exampleRows) [] none byName defaultDate) ->
      inherited (name (item s)) = Undefined)
  /\ (footerNote (filteredProducts asciiLower codeUnitCompare
                    (processedProducts exampleRows) [] none byName defaultDate)
      = None
      <-> forall s,
            In s (filteredProducts asciiLower codeUnitCompare
                    (processedProducts exampleRows) [] none byName defaultDate) ->
            isDuplicate s = false).
Proof.
  assert (H : forall s,
      In s (filteredProducts asciiLower codeUnitCompare
              (processedProducts exampleRows) [] none byName defaultDate) ->
      inherited (name (item s)) = Undefined).
  { intros s Hs. vm_compute in Hs.
    destruct Hs as [<-|[<-|[<-|[]]]]; reflexivity. }
  split; [exact H|].
  exact (footer_note_agrees_with_badges asciiLower codeUnitCompare
           (processedProducts exampleRows) [] none byName defaultDate H).
Defined.

(* ================================================================== *)
(** * The older component *)
(* ================================================================== *)

Lemma sortWith_same_decisions : forall (A : Type) (c1 c2 : A -> A -> Z) l,
  (forall x y, (c1 x y <=? 0)%Z = (c2 x y <=? 0)%Z) ->
  sortWith c1 l = sortWith c2 l.
Proof.
  intros A c1 c2 l H. induction l as [|x l IH]; [reflexivity|].
  cbn [sortWith]. rewrite IH. generalize (sortWith c2 l). intro m.
  induction m as [|y m IHm]; [reflexivity|].
  cbn [insertSorted]. now rewrite H, IHm.
Qed.

Lemma sortWith_map : forall (A B : Type) (f : A -> B) (c : B -> B -> Z) l,
  map f (sortWith (fun a b => c (f a) (f b)) l) = sortWith c (map f l).
Proof.
  intros A B f c. induction l as [|x l IH]; [reflexivity|].
  cbn [sortWith map]. rewrite <- IH.
  generalize (sortWith (fun a b => c (f a) (f b)) l). intro m.
  induction m as [|y m IHm]; [reflexivity|].
  cbn [insertSorted map]. destruct (c (f x) (f y) <=? 0)%Z; cbn [map];
    [reflexivity|now rewrite IHm].
Qed.

(** X17.  The two header buttons of the older component each run through a
    cycle of three: a click on the name button takes name ascending to
    name descending, name descending to unsorted, and every other mode,
    unsorted included, to name ascending; a click on the amount button
    takes amount descending to amount ascending, amount ascending to
    unsorted, and every other mode to amount descending.  So three clicks
    on one button bring each mode of its cycle back, a click on either
    button while the other one is active starts that button's cycle, and
    the name icon shows an arrow only in the two name modes. *)
Theorem legacy_buttons_cycle_in_three :
  forall m : Legacy.SortMode,
    (Legacy.handleNameSort Legacy.nameAsc = Legacy.nameDesc
     /\ Legacy.handleNameSort Legacy.nameDesc = Legacy.noSort
     /\ Legacy.handleNameSort Legacy.noSort = Legacy.nameAsc
     /\ (m <> Legacy.nameAsc -> m <> Legacy.nameDesc ->
         Legacy.handleNameSort m = Legacy.nameAsc))
    /\ (Legacy.handleAmountSort Legacy.amountDesc = Legacy.amountAsc
        /\ Legacy.handleAmountSort Legacy.amountAsc = Legacy.noSort
        /\ Legacy.handleAmountSort Legacy.noSort = Legacy.amountDesc
        /\ (m <> Legacy.amountDesc -> m <> Legacy.amountAsc ->
            Legacy.handleAmountSort m = Legacy.amountDesc))
    /\ ((m = Legacy.nameAsc \/ m = Legacy.nameDesc \/ m = Legacy.noSort) ->
        Legacy.handleNameSort m <> m
        /\ Legacy.handleNameSort (Legacy.handleNameSort m) <> m
        /\ Legacy.handleNameSort
             (Legacy.handleNameSort (Legacy.handleNameSort m)) = m)
    /\ ((m = Legacy.amountDesc \/ m = Legacy.amountAsc \/ m = Legacy.noSort) ->
        Legacy.handleAmountSort m <> m
        /\ Legacy.handleAmountSort (Legacy.handleAmountSort m) <> m
        /\ Legacy.handleAmountSort
             (Legacy.handleAmountSort (Legacy.handleAmountSort m)) = m)
    /\ Legacy.handleNameSort
         (Legacy.handleNameSort (Legacy.handleNameSort (Legacy.handleNameSort m)))
       = Legacy.handleNameSort m
    /\ Legacy.handleAmountSort
         (Legacy.handleAmountSort
            (Legacy.handleAmountSort (Legacy.handleAmountSort m)))
       = Legacy.handleAmountSort m
    /\ Legacy.handleNameSort (Legacy.handleAmountSort m) = Legacy.nameAsc
    /\ Legacy.handleAmountSort (Legacy.handleNameSort m) = Legacy.amountDesc
    /\ Legacy.getNameSortIcon (Legacy.handleAmountSort m) = SortAscIcon
    /\ Legacy.handleAmountSort Legacy.initialMode = Legacy.amountAsc.
Proof.
  intros []; repeat split; try reflexivity; try (cbn; discriminate);
    try congruence;
    match goal with
    | H : _ \/ _ |- _ => destruct H as [H|[H|H]]; discriminate H
    end.
Qed.

(** At a concrete input: the name button clicked from name ascending. *)
Lemma legacy_buttons_cycle_witness :
  Legacy.handleNameSort
    (Legacy.handleNameSort (Legacy.handleNameSort Legacy.nameAsc))
  = Legacy.nameAsc
  /\ Legacy.handleAmountSort Legacy.nameAsc = Legacy.amountDesc.
Proof.
  destruct (legacy_buttons_cycle_in_three Legacy.nameAsc)
    as [_ [[_ [_ [_ Hreset]]] [Hname _]]].
  split.
  - exact (proj2 (proj2 (Hname (or_introl eq_refl)))).
  - apply Hreset; discriminate.
Defined.

(** X18.  The sort of the current component orders a list exactly as the older
    component did: each of the five older modes gives, on the same
    records and without a search text, the list the current view gives
    for the matching direction and column.  The descending name mode of
    the older code swaps the arguments of the collation where the current
    code negates the result, which agrees for a consistent collation. *)
Theorem current_sort_matches_legacy_modes :
  forall (toLowerCase : jsstring -> jsstring)
         (localeCompare : jsstring -> jsstring -> Z)
         (l : list shownProduct),
    consistentComparator localeCompare ->
    Legacy.filteredProducts toLowerCase localeCompare (map toLegacy l) []
      Legacy.nameAsc
    = map toLegacy (sortView toLowerCase localeCompare asc byName l)
    /\ Legacy.filteredProducts toLowerCase localeCompare (map toLegacy l) []
         Legacy.nameDesc
       = map toLegacy (sortView toLowerCase localeCompare desc byName l)
    /\ Legacy.filteredProducts toLowerCase localeCompare (map toLegacy l) []
         Legacy.amountAsc
       = map toLegacy (sortView toLowerCase localeCompare asc byQuantity l)
    /\ Legacy.filteredProducts toLowerCase localeCompare (map toLegacy l) []
         Legacy.amountDesc
       = map toLegacy (sortView toLowerCase localeCompare desc byQuantity l)
    /\ Legacy.filteredProducts toLowerCase localeCompare (map toLegacy l) []
         Legacy.noSort
       = map toLegacy (sortView toLowerCase localeCompare none byName l).
Proof.
  intros toLowerCase localeCompare l [Hsym _].
  unfold Legacy.filteredProducts. cbn [truthy sortView].
  repeat split.
  - rewrite <- sortWith_map. reflexivity.
  - rewrite <- sortWith_map. f_equal. apply sortWith_same_decisions.
    intros x y. unfold comparator, comparison, toLegacy. cbn [Legacy.name].
    specialize (Hsym (toLowerCase (name (item x))) (toLowerCase (name (item y)))).
    destruct (Z.leb_spec
                (localeCompare (toLowerCase (name (item y)))
                   (toLowerCase (name (item x)))) 0),
             (Z.leb_spec
                (- localeCompare (toLowerCase (name (item x)))
                     (toLowerCase (name (item y)))) 0);
      try reflexivity; lia.
  - rewrite <- sortWith_map. reflexivity.
  - rewrite <- sortWith_map. f_equal. apply sortWith_same_decisions.
    intros x y. unfold comparator, comparison, toLegacy. cbn [Legacy.quantity].
    f_equal. lia.
Qed.

(** At a concrete input: three products under the code-unit order. *)
Lemma current_sort_matches_legacy_modes_witness :
  consistentComparator codeUnitCompare
  /\ Legacy.filteredProducts asciiLower codeUnitCompare
       (map toLegacy (annotate (aggregate (processedProducts threeProductsRows))))
       [] Legacy.nameDesc
     = map toLegacy
         (sortView asciiLower codeUnitCompare desc byName
            (annotate (aggregate (processedProducts threeProductsRows)))).
Proof.
  split; [exact codeUnitCompare_consistent|].
  exact (proj1 (proj2 (current_sort_matches_legacy_modes asciiLower
                         codeUnitCompare
                         (annotate (aggregate (processedProducts threeProductsRows)))
                         codeUnitCompare_consistent))).
Defined.

(* ================================================================== *)
(** * The untyped code: no exception on what the component holds *)
(* ================================================================== *)

Lemma filter_map_commute : forall (A B : Type) (g : A -> B) (f : B -> bool) l,
  filter f (map g l) = map g (filter (fun x => f (g x)) l).
Proof.
  intros A B g f. induction l as [|x l IH]; [reflexivity|].
  cbn [map filter]. destruct (f (g x)); cbn [map]; now rewrite IH.
Qed.

Lemma orValue_string : forall s,
  Untyped.orValue (Untyped.VString s) (Untyped.VString []) = Untyped.VString s.
Proof. intros [|c s]; reflexivity. Qed.

Lemma field_looseRow : forall r k,
  Untyped.field (looseRow r) k
  = match field r k with
    | Some s => Untyped.VString s
    | None => Untyped.VUndefined
    end.
Proof.
  induction r as [|[k' v] r IH]; intro k; [reflexivity|].
  cbn [looseRow map Untyped.field field fst snd].
  destruct (eqb_str k' k); [reflexivity|apply IH].
Qed.

Lemma resolve_looseRow : forall r a b,
  Untyped.orValue
    (Untyped.orValue (Untyped.field (looseRow r) a) (Untyped.field (looseRow r) b))
    (Untyped.VString [])
  = Untyped.VString (resolve r a b).
Proof.
  intros r a b. rewrite !field_looseRow. unfold resolve.
  destruct (field r a) as [[|c s]|], (field r b) as [[|d t]|]; reflexivity.
Qed.

Lemma toProduct_looseRow : forall index r,
  Untyped.toProduct index (looseRow r) = Untyped.Returns (loosen (toProduct index r)).
Proof.
  intros index r. unfold Untyped.toProduct.
  rewrite !resolve_looseRow, !orValue_string. reflexivity.
Qed.

Lemma mapFrom_looseRow : forall data index,
  Untyped.mapFrom Untyped.toProduct index (map looseRow data)
  = Untyped.Returns (map loosen (mapFrom toProduct index data)).
Proof.
  induction data as [|r data IH]; intro index; [reflexivity|].
  cbn [map Untyped.mapFrom mapFrom].
  rewrite toProduct_looseRow. cbn [Untyped.bind]. rewrite IH. reflexivity.
Qed.

Lemma processedProducts_looseRow : forall data,
  Untyped.processedProducts (map looseRow data)
  = Untyped.Returns (map loosen (processedProducts data)).
Proof.
  intro data. unfold Untyped.processedProducts, processedProducts.
  rewrite mapFrom_looseRow. cbn [Untyped.bind]. f_equal.
  apply filter_map_commute.
Qed.

Lemma combine_loosen : forall existing p,
  Untyped.combine (loosen existing) (loosen p) = loosen (combine existing p).
Proof.
  intros existing p. unfold Untyped.combine, combine, loosen.
  cbn [Untyped.quantity Untyped.id Untyped.name Untyped.date Untyped.uniqueKey
       id name quantity originalQuantity date uniqueKey].
  unfold Untyped.parseQuantity, Untyped.getUnit, Untyped.quantityText.
  rewrite !orValue_string. reflexivity.
Qed.

Lemma groupInsert_loosen : forall groupedProducts key p,
  Untyped.groupInsert
    (map (fun kg => (fst kg, loosen (snd kg))) groupedProducts) key (loosen p)
  = map (fun kg => (fst kg, loosen (snd kg))) (groupInsert groupedProducts key p).
Proof.
  induction groupedProducts as [|[k existing] rest IH]; intros key p;
    [reflexivity|].
  cbn [map Untyped.groupInsert groupInsert fst snd].
  destruct (eqb_str k key); cbn [map fst snd].
  - now rewrite combine_loosen.
  - now rewrite IH.
Qed.

Lemma aggregate_loosen : forall filtered,
  Untyped.aggregate (map loosen filtered) = map loosen (aggregate filtered).
Proof.
  intro filtered. unfold Untyped.aggregate, aggregate.
  assert (H : forall l acc,
    fold_left Untyped.groupStep (map loosen l)
      (map (fun kg => (fst kg, loosen (snd kg))) acc)
    = map (fun kg => (fst kg, loosen (snd kg))) (fold_left groupStep l acc)).
  { induction l as [|p l IH]; intro acc; [reflexivity|].
    cbn [map fold_left]. unfold Untyped.groupStep at 2, groupStep at 2.
    change (Untyped.groupKey (loosen p)) with (groupKey p).
    rewrite groupInsert_loosen. apply IH. }
  unfold Untyped.groupProducts, groupProducts.
  change (@nil (jsstring * Untyped.product))
    with (map (fun kg : jsstring * product => (fst kg, loosen (snd kg))) []).
  rewrite H, !map_map. reflexivity.
Qed.

Lemma countNames_loosen : forall filtered,
  Untyped.countNames (map loosen filtered) = countNames filtered.
Proof.
  intro filtered. unfold Untyped.countNames, countNames. generalize (@nil (jsstring * jsvalue)).
  induction filtered as [|p l IH]; intro acc; [reflexivity|].
  cbn [map fold_left]. apply IH.
Qed.

Lemma annotate_loosen : forall filtered,
  Untyped.annotate (map loosen filtered) = map loosenShown (annotate filtered).
Proof.
  intro filtered. unfold Untyped.annotate, annotate.
  rewrite countNames_loosen, !map_map. reflexivity.
Qed.

Section UntypedView.

Variable toLowerCase : jsstring -> jsstring.
Variable localeCompare : jsstring -> jsstring -> Z.

Lemma dateFilter_loosen : forall selectedDate products,
  Untyped.dateFilter selectedDate (map loosen products)
  = map loosen (dateFilter selectedDate products).
Proof.
  intros selectedDate products. unfold Untyped.dateFilter, dateFilter.
  apply filter_map_commute.
Qed.

Lemma textFilter_loosen : forall searchTerm filtered,
  Untyped.textFilter toLowerCase searchTerm (map loosen filtered)
  = Untyped.Returns (map loosen (textFilter toLowerCase searchTerm filtered)).
Proof.
  intros searchTerm filtered. unfold Untyped.textFilter, textFilter.
  destruct (truthy searchTerm); [|reflexivity].
  induction filtered as [|p l IH]; [reflexivity|].
  cbn [map Untyped.filterWith filter]. rewrite IH.
  unfold Untyped.matchesSearch, matchesSearch. cbn.
  now destruct (includes (toLowerCase (name p)) (toLowerCase searchTerm)).
Qed.

Lemma comparator_loosen : forall sortBy sortColumn a b,
  Untyped.comparator toLowerCase localeCompare sortBy sortColumn
    (loosenShown a) (loosenShown b)
  = Untyped.Returns (comparator toLowerCase localeCompare sortBy sortColumn a b).
Proof.
  intros sortBy sortColumn a b.
  unfold Untyped.comparator, comparator, Untyped.comparison, comparison.
  destruct sortColumn, sortBy; cbn; unfold Untyped.parseQuantity, Untyped.quantityText;
    rewrite ?orValue_string; reflexivity.
Qed.

Lemma insertSorted_loosen : forall sortBy sortColumn x l,
  Untyped.insertSorted
    (Untyped.comparator toLowerCase localeCompare sortBy sortColumn)
    (loosenShown x) (map loosenShown l)
  = Untyped.Returns
      (map loosenShown
         (insertSorted (comparator toLowerCase localeCompare sortBy sortColumn) x l)).
Proof.
  intros sortBy sortColumn x. induction l as [|y l IH]; [reflexivity|].
  cbn [map Untyped.insertSorted insertSorted].
  rewrite comparator_loosen. cbn [Untyped.bind].
  destruct (_ <=? 0)%Z; [reflexivity|]. now rewrite IH.
Qed.

Lemma sortView_loosen : forall sortBy sortColumn l,
  Untyped.sortView toLowerCase localeCompare sortBy sortColumn (map loosenShown l)
  = Untyped.Returns
      (map loosenShown (sortView toLowerCase localeCompare sortBy sortColumn l)).
Proof.
  intros sortBy sortColumn l.
  assert (H : Untyped.sortWith
                (Untyped.comparator toLowerCase localeCompare sortBy sortColumn)
                (map loosenShown l)
              = Untyped.Returns
                  (map loosenShown
                     (sortWith (comparator toLowerCase localeCompare sortBy sortColumn) l))).
  { induction l as [|x l IH]; [reflexivity|].
    cbn [map Untyped.sortWith sortWith]. rewrite IH. cbn [Untyped.bind].
    apply insertSorted_loosen. }
  destruct sortBy; cbn [Untyped.sortView sortView]; try exact H. reflexivity.
Qed.

Lemma filteredProducts_loosen :
  forall products searchTerm sortBy sortColumn selectedDate,
    Untyped.filteredProducts toLowerCase localeCompare (map loosen products)
      searchTerm sortBy sortColumn selectedDate
    = Untyped.Returns
        (map loosenShown
           (filteredProducts toLowerCase localeCompare products searchTerm
              sortBy sortColumn selectedDate)).
Proof.
  intros products searchTerm sortBy sortColumn selectedDate.
  unfold Untyped.filteredProducts, filteredProducts. cbv zeta.
  rewrite dateFilter_loosen, textFilter_loosen. cbn [Untyped.bind].
  rewrite aggregate_loosen, annotate_loosen. apply sortView_loosen.
Qed.

End UntypedView.

(** The view returns as soon as every name is a string, whatever the
    other fields hold. *)
Lemma groupInsert_names : forall groupedProducts key p,
  Forall (fun kg => hasStringName (snd kg)) groupedProducts ->
  hasStringName p ->
  Forall (fun kg => hasStringName (snd kg))
    (Untyped.groupInsert groupedProducts key p).
Proof.
  induction groupedProducts as [|[k existing] rest IH]; intros key p Hacc Hp;
    cbn [Untyped.groupInsert].
  - now repeat constructor.
  - inversion Hacc as [|? ? Hx Hrest]; subst.
    destruct (eqb_str k key); constructor; try assumption.
    now apply IH.
Qed.

Lemma aggregate_names : forall filtered,
  Forall hasStringName filtered -> Forall hasStringName (Untyped.aggregate filtered).
Proof.
  intros filtered H. unfold Untyped.aggregate, Untyped.groupProducts.
  assert (G : forall l acc,
    Forall hasStringName l ->
    Forall (fun kg => hasStringName (snd kg)) acc ->
    Forall (fun kg => hasStringName (snd kg)) (fold_left Untyped.groupStep l acc)).
  { induction l as [|p l IH]; intros acc Hl Hacc; [assumption|].
    inversion Hl; subst. cbn [fold_left]. apply IH; [assumption|].
    now apply groupInsert_names. }
  specialize (G filtered [] H (Forall_nil _)).
  apply Forall_forall. intros g Hg. apply in_map_iff in Hg.
  destruct Hg as [kg [<- Hin]]. revert kg Hin. now apply Forall_forall.
Qed.

Lemma filterWith_returns : forall (A : Type) (P : A -> Prop)
    (f : A -> Untyped.completion bool) l,
  (forall x, P x -> exists keep, f x = Untyped.Returns keep) ->
  Forall P l ->
  exists kept, Untyped.filterWith f l = Untyped.Returns kept /\ Forall P kept.
Proof.
  intros A P f l Hf. induction 1 as [|x l Hx Hl [kept [E Hk]]].
  - exists []. now split.
  - destruct (Hf x Hx) as [keep Ex]. cbn [Untyped.filterWith].
    rewrite Ex, E. cbn [Untyped.bind].
    destruct keep; eexists; (split; [reflexivity|]); [now constructor|assumption].
Qed.

Lemma insertSorted_returns : forall (A : Type) (P : A -> Prop)
    (cmp : A -> A -> Untyped.completion Z) x l,
  (forall a b, P a -> P b -> exists c, cmp a b = Untyped.Returns c) ->
  P x -> Forall P l ->
  exists l', Untyped.insertSorted cmp x l = Untyped.Returns l' /\ Forall P l'.
Proof.
  intros A P cmp x l Hc Hx. induction 1 as [|y l Hy Hl [l' [E Hl']]].
  - exists [x]. split; [reflexivity|now repeat constructor].
  - destruct (Hc x y Hx Hy) as [c Ec]. cbn [Untyped.insertSorted].
    rewrite Ec. cbn [Untyped.bind]. destruct (c <=? 0)%Z.
    + eexists. split; [reflexivity|]. now repeat constructor.
    + rewrite E. cbn [Untyped.bind]. eexists. split; [reflexivity|].
      now constructor.
Qed.

Lemma sortWith_returns : forall (A : Type) (P : A -> Prop)
    (cmp : A -> A -> Untyped.completion Z) l,
  (forall a b, P a -> P b -> exists c, cmp a b = Untyped.Returns c) ->
  Forall P l ->
  exists l', Untyped.sortWith cmp l = Untyped.Returns l' /\ Forall P l'.
Proof.
  intros A P cmp l Hc. induction 1 as [|x l Hx Hl [l' [E Hl']]].
  - exists []. now split.
  - cbn [Untyped.sortWith]. rewrite E. cbn [Untyped.bind].
    now apply (insertSorted_returns A P).
Qed.

Lemma filteredProducts_returns :
  forall (toLowerCase : jsstring -> jsstring)
         (localeCompare : jsstring -> jsstring -> Z)
         (products : list Untyped.product)
         (searchTerm : jsstring) (sortBy : SortBy) (sortColumn : SortColumn)
         (selectedDate : jsstring),
    Forall hasStringName products ->
    exists shown,
      Untyped.filteredProducts toLowerCase localeCompare products searchTerm
        sortBy sortColumn selectedDate = Untyped.Returns shown.
Proof.
  intros toLowerCase localeCompare products searchTerm sortBy sortColumn
         selectedDate H.
  unfold Untyped.filteredProducts. cbv zeta.
  assert (Hd : Forall hasStringName (Untyped.dateFilter selectedDate products)).
  { apply Forall_forall. intros p Hp. apply filter_In in Hp.
    destruct Hp as [Hp _]. exact (proj1 (Forall_forall _ _) H p Hp). }
  assert (Ht : exists filtered,
             Untyped.textFilter toLowerCase searchTerm
               (Untyped.dateFilter selectedDate products)
             = Untyped.Returns filtered /\ Forall hasStringName filtered).
  { unfold Untyped.textFilter. destruct (truthy searchTerm).
    - apply filterWith_returns; [|assumption].
      intros p [s Hs]. unfold Untyped.matchesSearch. rewrite Hs.
      eexists. reflexivity.
    - eexists. now split. }
  destruct Ht as [filtered [-> Hf]]. cbn [Untyped.bind].
  apply aggregate_names in Hf.
  assert (Ha : Forall (fun s => hasStringName (Untyped.item s))
                 (Untyped.annotate (Untyped.aggregate filtered))).
  { unfold Untyped.annotate. apply Forall_forall. intros s Hs.
    apply in_map_iff in Hs. destruct Hs as [p [<- Hp]].
    cbn [Untyped.annotateWith Untyped.item]. revert p Hp.
    now apply Forall_forall. }
  assert (Hc : forall direction a b,
             hasStringName (Untyped.item a) -> hasStringName (Untyped.item b) ->
             exists c, Untyped.comparator toLowerCase localeCompare direction
                         sortColumn a b = Untyped.Returns c).
  { intros direction a b [s Hs] [t Ht].
    unfold Untyped.comparator, Untyped.comparison.
    destruct sortColumn; rewrite ?Hs, ?Ht; eexists; reflexivity. }
  destruct sortBy; cbn [Untyped.sortView].
  - destruct (sortWith_returns _ _ _ _ (Hc asc) Ha) as [shown [E _]].
    now exists shown.
  - destruct (sortWith_returns _ _ _ _ (Hc desc) Ha) as [shown [E _]].
    now exists shown.
  - eexists. reflexivity.
Qed.

(** In the untyped code an exception is a possible result: a record whose
    name is [undefined] makes the search throw, and two of them in
    different groups make the sort by name throw; a row whose cell holds a
    number makes the normaliser throw.  One such record alone, with no
    search, is shown: nothing is then called on its name. *)
Example untyped_code_can_throw :
  Untyped.filteredProducts asciiLower codeUnitCompare [namelessProduct (js "2 kg")]
    (js "a") none byName defaultDate = Untyped.Throws Untyped.TypeError
  /\ Untyped.filteredProducts asciiLower codeUnitCompare
       [namelessProduct (js "2 kg"); namelessProduct (js "3 kg")]
       [] asc byName defaultDate
     = Untyped.Throws Untyped.TypeError
  /\ Untyped.processedProducts
       [[(col_urun, Untyped.VNumber 5); (col_miktar, Untyped.VString (js "2 kg"))]]
     = Untyped.Throws Untyped.TypeError
  /\ exists shown,
       Untyped.filteredProducts asciiLower codeUnitCompare
         [namelessProduct (js "2 kg")] [] asc byName defaultDate
       = Untyped.Returns [shown].
Proof.
  split; [vm_compute; reflexivity|]. split; [vm_compute; reflexivity|].
  split; [vm_compute; reflexivity|]. eexists. vm_compute. reflexivity.
Qed.

(** C10.  The code that can throw does not throw on any input.  For every
    list of rows whose cells are strings the normaliser returns, and what
    it returns are records with string fields; for every list of such
    records, every search text, every sort setting and every date the
    body of [filteredProducts] returns, and returns the displayed list
    described in the rest of this file; so from every list of rows the
    two together return a displayed list.  The view returns even on
    records whose other fields are no strings, as long as every name is
    one.  On the empty list it returns the empty list, and both counts of
    the page are 0. *)
Theorem pipeline_returns_on_every_input :
  forall (toLowerCase : jsstring -> jsstring)
         (localeCompare : jsstring -> jsstring -> Z)
         (searchTerm : jsstring) (sortBy : SortBy) (sortColumn : SortColumn)
         (selectedDate : jsstring),
    (forall data : list RawRow,
        Untyped.processedProducts (map looseRow data)
        = Untyped.Returns (map loosen (processedProducts data)))
    /\ (forall products : list product,
          Untyped.filteredProducts toLowerCase localeCompare (map loosen products)
            searchTerm sortBy sortColumn selectedDate
          = Untyped.Returns
              (map loosenShown
                 (filteredProducts toLowerCase localeCompare products searchTerm
                    sortBy sortColumn selectedDate)))
    /\ (forall data : list RawRow,
          exists products shown,
            Untyped.processedProducts (map looseRow data) = Untyped.Returns products
            /\ Untyped.filteredProducts toLowerCase localeCompare products
                 searchTerm sortBy sortColumn selectedDate = Untyped.Returns shown)
    /\ (forall products : list Untyped.product,
          Forall hasStringName products ->
          exists shown,
            Untyped.filteredProducts toLowerCase localeCompare products
              searchTerm sortBy sortColumn selectedDate = Untyped.Returns shown)
    /\ Untyped.filteredProducts toLowerCase localeCompare [] searchTerm
         sortBy sortColumn selectedDate = Untyped.Returns []
    /\ totalCount [] = 0%nat
    /\ shownCount (filteredProducts toLowerCase localeCompare [] searchTerm
                     sortBy sortColumn selectedDate) = 0%nat.
Proof.
  intros toLowerCase localeCompare searchTerm sortBy sortColumn selectedDate.
  split; [exact processedProducts_looseRow|].
  split; [intro products; apply filteredProducts_loosen|].
  split.
  { intro data. eexists. eexists.
    split; [apply processedProducts_looseRow|apply filteredProducts_loosen]. }
  split; [intros products H; now apply filteredProducts_returns|].
  split; [|split; [reflexivity|now rewrite filteredProducts_nil]].
  change (@nil Untyped.product) with (map loosen []).
  rewrite filteredProducts_loosen. now rewrite filteredProducts_nil.
Qed.

(** At a concrete input: two records named by strings, one of them with a
    number as its quantity, searched for "a" and sorted by name. *)
Lemma pipeline_returns_witness :
  Forall hasStringName
    [ Untyped.mkProduct (Untyped.VNumber 1) (Untyped.VString (js "Elma"))
        (Untyped.VNumber 5) (Untyped.VNumber 5) (Untyped.VString defaultDate)
        (Untyped.VString (js "Elma-5"));
      loosen (mkProduct 2 (js "Armut") (js "1 adet") (js "1 adet") defaultDate
                (js "Armut-1 adet")) ]
  /\ exists shown,
       Untyped.filteredProducts asciiLower codeUnitCompare
         [ Untyped.mkProduct (Untyped.VNumber 1) (Untyped.VString (js "Elma"))
             (Untyped.VNumber 5) (Untyped.VNumber 5) (Untyped.VString defaultDate)
             (Untyped.VString (js "Elma-5"));
           loosen (mkProduct 2 (js "Armut") (js "1 adet") (js "1 adet") defaultDate
                     (js "Armut-1 adet")) ]
         (js "a") asc byName defaultDate
       = Untyped.Returns shown.
Proof.
  assert (H : Forall hasStringName
    [ Untyped.mkProduct (Untyped.VNumber 1) (Untyped.VString (js "Elma"))
        (Untyped.VNumber 5) (Untyped.VNumber 5) (Untyped.VString defaultDate)
        (Untyped.VString (js "Elma-5"));
      loosen (mkProduct 2 (js "Armut") (js "1 adet") (js "1 adet") defaultDate
                (js "Armut-1 adet")) ]).
  { repeat constructor; eexists; reflexivity. }
  split; [exact H|].
  exact (proj1 (proj2 (proj2 (proj2 (pipeline_returns_on_every_input asciiLower
                                       codeUnitCompare (js "a") asc byName
                                       defaultDate))))
           _ H).
Defined.
